(** * Crash-safety guard and crash-injection harness of PGlite's NodeFS backend

    A shallow embedding of

    - [packages/pglite/src/fs/nodefs.ts]: the sibling lock file
      ([#acquireLock], [#isProcessAlive]) and the partial-initdb detector
      ([#cleanPartialInit], [#moveDataDirToBackup]);
    - [packages/pglite/tests/crash-safety/harness.js]: [crashTest],
      [tryOpen] and [verifyIntegrity].

    The file system, the process table, the clock, the child process and the
    database engine are explicit arguments; every JavaScript exception is an
    explicit result. *)

From Stdlib Require Import ZArith String Ascii List Bool Lia DecimalString DecimalZ.
From stdpp Require Import gmap strings list fin_maps.

(** ** JavaScript string and number primitives used by the sources *)

Module JS.

Definition nl_char : ascii := ascii_of_nat 10.
Definition nl : string := String nl_char EmptyString.
Definition dquote : string := String (ascii_of_nat 34) EmptyString.
Definition squote : string := String (ascii_of_nat 39) EmptyString.

(** A string is the sequence of the UTF-8 bytes of the JavaScript string,
    which is what [readFileSync(path, 'utf-8')] decodes. The white space of
    [String.prototype.trim] and of [parseInt] is WhiteSpace and
    LineTerminator of ECMAScript: TAB, LF, VT, FF, CR, SPACE, which are one
    byte each, and the code points below, which are two or three. *)
Definition is_ws (c : ascii) : bool :=
  let n := nat_of_ascii c in
  (n =? 9) || (n =? 10) || (n =? 11) || (n =? 12) || (n =? 13) || (n =? 32).

(** The first byte of a white-space code point of more than one byte. *)
Definition is_ws_lead (a : ascii) : bool :=
  let n := nat_of_ascii a in
  (n =? 194) || (n =? 225) || (n =? 226) || (n =? 227) || (n =? 239).

(** U+00A0 NO-BREAK SPACE, [C2 A0]. *)
Definition is_ws2 (a b : ascii) : bool :=
  (nat_of_ascii a =? 194) && (nat_of_ascii b =? 160).

Definition nbsp : string :=
  String (ascii_of_nat 194) (String (ascii_of_nat 160) EmptyString).

(** U+1680 [E1 9A 80]; U+2000 to U+200A [E2 80 80] to [E2 80 8A]; U+2028 and
    U+2029 [E2 80 A8], [E2 80 A9]; U+202F [E2 80 AF]; U+205F [E2 81 9F];
    U+3000 [E3 80 80]; U+FEFF [EF BB BF]. *)
Definition is_ws3 (a b c : ascii) : bool :=
  let x := nat_of_ascii a in
  let y := nat_of_ascii b in
  let z := nat_of_ascii c in
  ((x =? 225) && (y =? 154) && (z =? 128)) ||
  ((x =? 226) && (y =? 128) &&
   (((128 <=? z) && (z <=? 138)) || (z =? 168) || (z =? 169) || (z =? 175))) ||
  ((x =? 226) && (y =? 129) && (z =? 159)) ||
  ((x =? 227) && (y =? 128) && (z =? 128)) ||
  ((x =? 239) && (y =? 187) && (z =? 191)).

(** U+FEFF, the byte order mark. *)
Definition bom : string :=
  String (ascii_of_nat 239) (String (ascii_of_nat 187)
    (String (ascii_of_nat 191) EmptyString)).

Fixpoint trimStart (s : string) : string :=
  match s with
  | EmptyString => EmptyString
  | String a s1 =>
      if is_ws a then trimStart s1
      else if is_ws_lead a then
        match s1 with
        | String b s2 =>
            if is_ws2 a b then trimStart s2
            else match s2 with
                 | String c s3 => if is_ws3 a b c then trimStart s3 else s
                 | EmptyString => s
                 end
        | EmptyString => s
        end
      else s
  end.

(** Nothing but white space. *)
Definition all_ws (s : string) : bool :=
  match trimStart s with EmptyString => true | String _ _ => false end.

(** What is left when the longest suffix of white space is cut off. *)
Fixpoint trimEnd (s : string) : string :=
  match s with
  | EmptyString => EmptyString
  | String c s' => if all_ws s then EmptyString else String c (trimEnd s')
  end.

(** [s.trim()] *)
Definition trim (s : string) : string := trimEnd (trimStart s).

(** [s.split(sep)] for a one-character separator: never the empty array. *)
Fixpoint split (sep : ascii) (s : string) : list string :=
  match s with
  | EmptyString => [EmptyString]
  | String c s' =>
      if Ascii.eqb c sep then EmptyString :: split sep s'
      else match split sep s' with
           | h :: t => String c h :: t
           | [] => [String c EmptyString]
           end
  end.

(** No character of [s] is the separator [c]. *)
Fixpoint no_sep (c : ascii) (s : string) : bool :=
  match s with
  | EmptyString => true
  | String x s' => negb (Ascii.eqb x c) && no_sep c s'
  end.

(** A JavaScript number that came out of [parseInt]: [None] is [NaN]. The
    rounding of integers beyond 2^53 is not represented. *)
Definition number : Type := option Z.

Definition digit_val (c : ascii) : option Z :=
  let n := nat_of_ascii c in
  if (48 <=? n) && (n <=? 57) then Some (Z.of_nat (n - 48)) else None.

(** The longest prefix of decimal digits, accumulated left to right;
    [acc = None] while no digit has been read. *)
Fixpoint digits (s : string) (acc : option Z) : option Z :=
  match s with
  | EmptyString => acc
  | String c s' =>
      match digit_val c with
      | Some d => digits s' (Some (10 * default 0%Z acc + d)%Z)
      | None => acc
      end
  end.

(** [parseInt(s, 10)]: leading white space, an optional sign, then as many
    digits as there are; [NaN] when there is none. *)
Definition parseInt (s : string) : number :=
  match trimStart s with
  | String c s' =>
      if Ascii.eqb c "-"%char then Z.opp <$> digits s' None
      else if Ascii.eqb c "+"%char then digits s' None
      else digits (String c s') None
  | EmptyString => None
  end.

(** [parseInt(lines[0], 10)]; [lines[0]] of an empty array is [undefined],
    whose parse is [NaN]. *)
Definition parseInt_at0 (lines : list string) : number :=
  match lines with
  | l0 :: _ => parseInt l0
  | [] => None
  end.

Definition isNaN (x : number) : bool :=
  match x with None => true | Some _ => false end.

(** Truthiness of a number: neither [0] nor [NaN]. *)
Definition truthy (x : number) : bool :=
  match x with Some z => negb (z =? 0)%Z | None => false end.

(** [`${n}`] for an integer. *)
Definition toString (z : Z) : string := NilZero.string_of_int (Z.to_int z).

(** [hay.includes(needle)] *)
Fixpoint includes (needle hay : string) : bool :=
  String.prefix needle hay ||
  match hay with
  | EmptyString => false
  | String _ hay' => includes needle hay'
  end.

(** [s.replace(/[:.]/g, '-')] *)
Fixpoint replace_colon_dot (s : string) : string :=
  match s with
  | EmptyString => EmptyString
  | String c s' =>
      String (if Ascii.eqb c ":"%char || Ascii.eqb c "."%char then "-"%char else c)
             (replace_colon_dot s')
  end.

(** The value of the decimal digits [d] read after the value [acc]. *)
Fixpoint uval (d : Decimal.uint) (acc : Z) : Z :=
  match d with
  | Decimal.Nil => acc
  | Decimal.D0 d' => uval d' (10 * acc + 0)
  | Decimal.D1 d' => uval d' (10 * acc + 1)
  | Decimal.D2 d' => uval d' (10 * acc + 2)
  | Decimal.D3 d' => uval d' (10 * acc + 3)
  | Decimal.D4 d' => uval d' (10 * acc + 4)
  | Decimal.D5 d' => uval d' (10 * acc + 5)
  | Decimal.D6 d' => uval d' (10 * acc + 6)
  | Decimal.D7 d' => uval d' (10 * acc + 7)
  | Decimal.D8 d' => uval d' (10 * acc + 8)
  | Decimal.D9 d' => uval d' (10 * acc + 9)
  end%Z.

(** The characters of a printed integer: a digit or the minus sign. *)
Definition decimal_char (c : ascii) : bool :=
  match digit_val c with Some _ => true | None => Ascii.eqb c "-"%char end.

Fixpoint all_chars (P : ascii -> bool) (s : string) : bool :=
  match s with
  | EmptyString => true
  | String c s' => P c && all_chars P s'
  end.

End JS.

(** ** [nodefs.ts]: lock file and partial-initialisation detector *)

Module NodeFS.
Import JS.

(** What a path of the host file system names. *)
#[warnings="-register-all"] Inductive node : Type :=
| File (content : string)
| Dir (entries : list (string * node)).

(** The values thrown inside [NodeFS]: the lock error built at
    nodefs.ts:68, and the errors of the [fs] module. *)
Inductive thrown : Type :=
| LockedErr (rootDir : string) (pid : Z) (lockPath : string)
| FsErr (code : string) (msg : string).

(** [e.message] *)
Definition message (e : thrown) : string :=
  match e with
  | LockedErr rootDir pid lockPath =>
      "Data directory " +:+ dquote +:+ rootDir +:+ dquote +:+
      " is locked by another PGlite instance " +:+
      "(PID " +:+ toString pid +:+ "). Close the other instance first, or delete " +:+
      dquote +:+ lockPath +:+ dquote +:+ " if the process is no longer running."
  | FsErr _ msg => msg
  end.

(** What [process.kill(pid, 0)] can raise. *)
Inductive kill_exn : Type := ESRCH | EPERM | EINVAL.

(** The host as the process sees it. *)
Record os : Type := {
  self_pid : Z;                        (* process.pid *)
  date_now : Z;                        (* Date.now() *)
  iso_now : string;                    (* new Date().toISOString() *)
  kill0 : Z -> option kill_exn         (* process.kill(pid, 0): None = returned *)
}.

(** The mutable world of one [NodeFS] object. Top-level paths ([rootDir]
    and its siblings) are the keys of [fs]; what lies below a directory is
    in its [Dir] node. [fds] is the descriptor table of the process. *)
Record state : Type := {
  fs : gmap string node;
  fds : list (option string);
  lockFd : option nat;                 (* this.#lockFd *)
  warnings : list string               (* console.warn output *)
}.

Definition set_fs (st : state) (f : gmap string node) : state :=
  {| fs := f; fds := fds st; lockFd := lockFd st; warnings := warnings st |}.

(** *** [fs] primitives *)

Definition lookup_entry (name : string) (es : list (string * node)) : option node :=
  snd <$> List.find (fun e => String.eqb (fst e) name) es.

(** The node at [path.join(top, rel...)]. *)
Fixpoint descend (n : node) (rel : list string) : option node :=
  match rel with
  | [] => Some n
  | name :: rel' =>
      match n with
      | Dir es =>
          match lookup_entry name es with
          | Some n' => descend n' rel'
          | None => None
          end
      | File _ => None
      end
  end.

Definition stat (f : gmap string node) (top : string) (rel : list string) : option node :=
  match f !! top with
  | Some n => descend n rel
  | None => None
  end.

(** [fs.existsSync(path.join(top, rel...))] *)
Definition existsSync (f : gmap string node) (top : string) (rel : list string) : bool :=
  match stat f top rel with Some _ => true | None => false end.

Definition enoent (syscall p : string) : thrown :=
  FsErr "ENOENT" ("ENOENT: no such file or directory, " +:+ syscall +:+ " " +:+
                  squote +:+ p +:+ squote).

(** [fs.readFileSync(p, 'utf-8')] *)
Definition readFileSync (f : gmap string node) (p : string) : thrown + string :=
  match f !! p with
  | Some (File c) => inr c
  | Some (Dir _) => inl (FsErr "EISDIR" "EISDIR: illegal operation on a directory, read")
  | None => inl (enoent "open" p)
  end.

(** [fs.readdirSync(path.join(top, rel...))] *)
Definition readdirSync (f : gmap string node) (top : string) (rel : list string)
  : thrown + list string :=
  match stat f top rel with
  | Some (Dir es) => inr (map fst es)
  | Some (File _) =>
      inl (FsErr "ENOTDIR" ("ENOTDIR: not a directory, scandir " +:+ squote +:+ top +:+ squote))
  | None => inl (enoent "scandir" top)
  end.

(** The lowest free slot of the descriptor table. *)
Fixpoint alloc_fd (tbl : list (option string)) (p : string) : nat * list (option string) :=
  match tbl with
  | [] => (0, [Some p])
  | None :: t => (0, Some p :: t)
  | Some q :: t => let '(n, t') := alloc_fd t p in (S n, Some q :: t')
  end.

(** [fs.openSync(p, 'w')]: create or truncate. *)
Definition openSync_w (st : state) (p : string) : thrown + (nat * state) :=
  match fs st !! p with
  | Some (Dir _) =>
      inl (FsErr "EISDIR" ("EISDIR: illegal operation on a directory, open " +:+
                           squote +:+ p +:+ squote))
  | _ =>
      let '(fd, tbl) := alloc_fd (fds st) p in
      inr (fd, {| fs := <[p := File EmptyString]> (fs st); fds := tbl;
                  lockFd := lockFd st; warnings := warnings st |})
  end.

(** [fs.writeSync(fd, data)] on a descriptor just opened with ['w']: the
    data lands after what the descriptor wrote so far. *)
Definition writeSync (st : state) (fd : nat) (data : string) : thrown + state :=
  match fds st !! fd with
  | Some (Some p) =>
      match fs st !! p with
      | Some (File c) => inr (set_fs st (<[p := File (c +:+ data)]> (fs st)))
      | _ => inl (FsErr "EBADF" "EBADF: bad file descriptor, write")
      end
  | _ => inl (FsErr "EBADF" "EBADF: bad file descriptor, write")
  end.

(** [fs.renameSync(old, new)]: the target must be free or an empty
    directory when a directory is moved. *)
Definition renameSync (f : gmap string node) (old new : string)
  : thrown + gmap string node :=
  match f !! old with
  | None => inl (enoent "rename" old)
  | Some n =>
      match f !! new, n with
      | None, _ | Some (Dir []), Dir _ | Some (File _), File _ =>
          inr (<[new := n]> (delete old f))
      | Some (Dir []), File _ =>
          inl (FsErr "EISDIR" "EISDIR: illegal operation on a directory, rename")
      | Some (Dir (_ :: _)), _ =>
          inl (FsErr "ENOTEMPTY" "ENOTEMPTY: directory not empty, rename")
      | Some (File _), Dir _ =>
          inl (FsErr "ENOTDIR" "ENOTDIR: not a directory, rename")
      end
  end.

(** [fs.mkdirSync(p)] *)
Definition mkdirSync (f : gmap string node) (p : string) : thrown + gmap string node :=
  match f !! p with
  | Some _ => inl (FsErr "EEXIST" ("EEXIST: file already exists, mkdir " +:+
                                   squote +:+ p +:+ squote))
  | None => inr (<[p := Dir []]> f)
  end.

(** *** [#isProcessAlive] (nodefs.ts:161) *)

Definition isProcessAlive (o : os) (pid : Z) : bool :=
  match kill0 o pid with
  | None => true
  | Some _ => false
  end.

(** *** [#acquireLock] (nodefs.ts:58) *)

Definition lockPathOf (rootDir : string) : string := rootDir +:+ ".lock".

(** The pid a lock record names: [parseInt] of the first line of the
    trimmed content, when it passes the test [pid && !isNaN(pid)] of
    nodefs.ts:67, which [NaN] and [0] fail. *)
Definition ownerPid (raw : string) : option Z :=
  let pid := parseInt_at0 (split nl_char (trim raw)) in
  if truthy pid && negb (isNaN pid) then pid else None.

(** The body of the [try] block: [inr tt] when it falls through. *)
Definition acquireLock_try (o : os) (rootDir : string) (st : state) : thrown + unit :=
  let lockPath := lockPathOf rootDir in
  match readFileSync (fs st) lockPath with
  | inl e => inl e
  | inr raw =>
      let content := trim raw in
      let lines := split nl_char content in
      let pid := parseInt_at0 lines in
      match pid with
      | Some p =>
          if truthy pid && negb (isNaN pid) && isProcessAlive o p
          then inl (LockedErr rootDir p lockPath)
          else inr tt
      | None => inr tt
      end
  end.

(** The [catch]: lock errors are thrown again, anything else is dropped. *)
Definition acquireLock_check (o : os) (rootDir : string) (st : state) : option thrown :=
  if existsSync (fs st) (lockPathOf rootDir) [] then
    match acquireLock_try o rootDir st with
    | inl e => if includes "is locked by" (message e) then Some e else None
    | inr _ => None
    end
  else None.

Definition lockRecord (o : os) : string :=
  toString (self_pid o) +:+ nl +:+ toString (date_now o) +:+ nl.

(** The final state, and the exception that left the method, if any. *)
Definition acquireLock (o : os) (rootDir : string) (st : state) : state * option thrown :=
  match acquireLock_check o rootDir st with
  | Some e => (st, Some e)
  | None =>
      match openSync_w st (lockPathOf rootDir) with
      | inl e => (st, Some e)
      | inr (fd, st1) =>
          let st2 := {| fs := fs st1; fds := fds st1; lockFd := Some fd;
                        warnings := warnings st1 |} in
          match writeSync st2 fd (lockRecord o) with
          | inl e => (st2, Some e)
          | inr st3 => (st3, None)
          end
      end
  end.

(** *** Paths

    [rootDir] is [path.resolve(dataDir)]: absolute, normalised, and without
    a trailing separator unless it is the root of the file system. *)

Definition sep : ascii := "/"%char.

Definition segments (p : string) : list string := split sep p.

(** The segments of a directory path, a trailing separator dropped. *)
Definition dir_segments (d : string) : list string :=
  match List.last (segments d) EmptyString with
  | EmptyString => List.removelast (segments d)
  | _ => segments d
  end.

(** [p] names something below the directory [d]. *)
Definition inside (d p : string) : bool :=
  (length (dir_segments d) <? length (segments p)) &&
  bool_decide (take (length (dir_segments d)) (segments p) = dir_segments d).

(** *** [#moveDataDirToBackup] (nodefs.ts:150) *)

Definition backupPathOf (o : os) (rootDir : string) : string :=
  rootDir +:+ ".corrupt-" +:+ replace_colon_dot (iso_now o).

Definition backupWarning (backupPath : string) : string :=
  "PGlite: Detected partially-initialized data directory. " +:+
  "Moved to " +:+ dquote +:+ backupPath +:+ dquote +:+
  " for recovery. A fresh database will be created.".

Definition moveDataDirToBackup (o : os) (rootDir : string) (st : state)
  : state * option thrown :=
  let backupPath := backupPathOf o rootDir in
  match renameSync (fs st) rootDir backupPath with
  | inl e => (st, Some e)
  | inr f1 =>
      match mkdirSync f1 rootDir with
      | inl e => (set_fs st f1, Some e)
      | inr f2 =>
          ({| fs := f2; fds := fds st; lockFd := lockFd st;
              warnings := warnings st ++ [backupWarning backupPath] |}, None)
      end
  end.

(** The quarantine of the specification, for a data directory with the
    entries [es]: the directory is found under the backup path, a fresh
    empty directory is in its place, and one warning names the backup. *)
Definition quarantined (o : os) (rootDir : string) (es : list (string * node))
    (st : state) : state :=
  {| fs := <[rootDir := Dir []]>
             (<[backupPathOf o rootDir := Dir es]> (delete rootDir (fs st)));
     fds := fds st; lockFd := lockFd st;
     warnings := warnings st ++ [backupWarning (backupPathOf o rootDir)] |}.

(** *** [#cleanPartialInit] (nodefs.ts:106)

    The outer [catch] drops every exception, so only the state is left. *)
Definition cleanPartialInit (o : os) (rootDir : string) (st : state) : state :=
  match readdirSync (fs st) rootDir [] with
  | inl _ => st
  | inr entries =>
      if length entries =? 0 then st
      else if negb (existsSync (fs st) rootDir ["PG_VERSION"%string]) then
        fst (moveDataDirToBackup o rootDir st)
      else if existsSync (fs st) rootDir ["base"%string] then
        match readdirSync (fs st) rootDir ["base"%string] with
        | inl _ => st
        | inr databases =>
            if length databases <? 3 then fst (moveDataDirToBackup o rootDir st)
            else st
        end
      else fst (moveDataDirToBackup o rootDir st)
  end.

(** *** [#releaseLock] (nodefs.ts:88) and [closeFs] (nodefs.ts:170) *)

(** [fs.closeSync(fd)] *)
Definition closeSync (st : state) (fd : nat) : thrown + state :=
  match fds st !! fd with
  | Some (Some _) =>
      inr {| fs := fs st; fds := <[fd := None]> (fds st);
             lockFd := lockFd st; warnings := warnings st |}
  | _ => inl (FsErr "EBADF" "EBADF: bad file descriptor, close")
  end.

(** [fs.unlinkSync(p)] *)
Definition unlinkSync (f : gmap string node) (p : string) : thrown + gmap string node :=
  match f !! p with
  | Some (File _) => inr (delete p f)
  | Some (Dir _) =>
      inl (FsErr "EISDIR" ("EISDIR: illegal operation on a directory, unlink " +:+
                           squote +:+ p +:+ squote))
  | None => inl (enoent "unlink" p)
  end.

(** Both [catch] blocks are empty: the method never throws. *)
Definition releaseLock (rootDir : string) (st : state) : state :=
  match lockFd st with
  | None => st
  | Some fd =>
      let st1 := match closeSync st fd with inr st' => st' | inl _ => st end in
      let st2 := {| fs := fs st1; fds := fds st1; lockFd := None;
                    warnings := warnings st1 |} in
      match unlinkSync (fs st2) (lockPathOf rootDir) with
      | inr f => set_fs st2 f
      | inl _ => st2
      end
  end.

(** [closeFs] releases the lock and then shuts the Emscripten file system
    down, which is outside this file. *)
Definition closeFs (rootDir : string) (st : state) : state := releaseLock rootDir st.

(** *** The constructor (nodefs.ts:16) and [init] (nodefs.ts:24)

    [rootDir] is the resolved path; the constructor creates the directory
    when nothing is there. The parent of [rootDir] is taken to exist: the
    keys of [fs] are paths of one directory. *)
Definition construct (rootDir : string) (st : state) : state * option thrown :=
  if negb (existsSync (fs st) rootDir []) then
    match mkdirSync (fs st) rootDir with
    | inl e => (st, Some e)
    | inr f => (set_fs st f, None)
    end
  else (st, None).

(** [init] up to the point where it builds the Emscripten options: the lock
    first, the detector second. *)
Definition init (o : os) (rootDir : string) (st : state) : state * option thrown :=
  match acquireLock o rootDir st with
  | (st1, Some e) => (st1, Some e)
  | (st1, None) => (cleanPartialInit o rootDir st1, None)
  end.

End NodeFS.

(** ** [harness.js]: crash injection and verification *)

Module Harness.
Import JS.

(** *** [crashTest] (harness.js:56)

    The promise body installs five handlers and then returns; from there on
    the event loop calls them one at a time. The handlers are the [step]
    function below, the event loop's choices are a list of [event]s. *)

(** What [process.send] delivers: the workers send strings, and now and
    then an object. *)
Inductive ipc_msg : Type :=
| MsgStr (s : string)
| MsgObj (json : string).

Record options : Type := {
  killAfterMs : N;
  signal : string;
  killOnMessage : option string        (* None = null *)
}.

Definition default_options : options :=
  {| killAfterMs := 500%N; signal := "SIGKILL"; killOnMessage := None |}.

(** Truthiness of [killOnMessage]: neither [null] nor the empty string. *)
Definition trigger (o : options) : option string :=
  match killOnMessage o with
  | Some EmptyString => None
  | Some k => Some k
  | None => None
  end.

(** [msg === killOnMessage] *)
Definition strict_eq (msg : ipc_msg) (k : string) : bool :=
  match msg with
  | MsgStr s => String.eqb s k
  | MsgObj _ => false
  end.

Inductive event : Type :=
| OnStdout (d : string)
| OnStderr (d : string)
| OnMessage (msg : ipc_msg)
| OnError (msg : string)
| OnExit (code : option Z) (sig : option string)
| KillTimerFires                       (* the setTimeout of line 123 *)
| SafetyTimerFires.                    (* the setTimeout of line 132 *)

(** What [resolvePromise] received, apart from [workerMessages], which is
    the [messages] array itself and not a copy. *)
Record settled_fields : Type := {
  s_workerKilled : bool;
  s_workerError : option string;
  s_workerExitCode : option Z;
  s_workerSignal : option string;
  s_stdout : string;
  s_stderr : string
}.

Record hstate : Type := {
  messages : list ipc_msg;
  workerError : option string;
  killed : bool;
  killTimer : bool;                    (* the variable holds a timer *)
  killTimerPending : bool;             (* that timer is still scheduled *)
  safetyPending : bool;                (* the 30 s timer is still scheduled *)
  stdout : string;
  stderr : string;
  sent : list string;                  (* arguments of child.kill, in order *)
  settled : option settled_fields      (* the promise, once resolved *)
}.

(** The state when the promise body returns. *)
Definition init (o : options) : hstate :=
  let timer := match trigger o with Some _ => false | None => true end in
  {| messages := []; workerError := None; killed := false;
     killTimer := timer; killTimerPending := timer; safetyPending := true;
     stdout := EmptyString; stderr := EmptyString; sent := []; settled := None |}.

(** [killed = true; child.kill(sig)] *)
Definition kill_with (sig : string) (clearTimer : bool) (st : hstate) : hstate :=
  {| messages := messages st; workerError := workerError st; killed := true;
     killTimer := killTimer st;
     killTimerPending := if clearTimer && killTimer st then false else killTimerPending st;
     safetyPending := safetyPending st;
     stdout := stdout st; stderr := stderr st;
     sent := sent st ++ [sig]; settled := settled st |}.

Definition on_message (o : options) (msg : ipc_msg) (st : hstate) : hstate :=
  let st1 :=
    {| messages := messages st ++ [msg]; workerError := workerError st;
       killed := killed st; killTimer := killTimer st;
       killTimerPending := killTimerPending st; safetyPending := safetyPending st;
       stdout := stdout st; stderr := stderr st; sent := sent st;
       settled := settled st |} in
  match trigger o with
  | Some k => if strict_eq msg k && negb (killed st1)
              then kill_with (signal o) true st1 else st1
  | None => st1
  end.

Definition on_exit (o : options) (code : option Z) (sig : option string) (st : hstate)
  : hstate :=
  let r := {| s_workerKilled :=
                match sig with Some s => String.eqb s (signal o) | None => false end
                || killed st;
              s_workerError := workerError st;
              s_workerExitCode := code; s_workerSignal := sig;
              s_stdout := stdout st; s_stderr := stderr st |} in
  {| messages := messages st; workerError := workerError st; killed := killed st;
     killTimer := killTimer st;
     killTimerPending := if killTimer st then false else killTimerPending st;
     safetyPending := safetyPending st;
     stdout := stdout st; stderr := stderr st; sent := sent st;
     settled := match settled st with Some r0 => Some r0 | None => Some r end |}.

Definition step (o : options) (st : hstate) (e : event) : hstate :=
  match e with
  | OnStdout d =>
      {| messages := messages st; workerError := workerError st; killed := killed st;
         killTimer := killTimer st; killTimerPending := killTimerPending st;
         safetyPending := safetyPending st;
         stdout := stdout st +:+ d; stderr := stderr st; sent := sent st;
         settled := settled st |}
  | OnStderr d =>
      {| messages := messages st; workerError := workerError st; killed := killed st;
         killTimer := killTimer st; killTimerPending := killTimerPending st;
         safetyPending := safetyPending st;
         stdout := stdout st; stderr := stderr st +:+ d; sent := sent st;
         settled := settled st |}
  | OnMessage msg => on_message o msg st
  | OnError m =>
      {| messages := messages st; workerError := Some m; killed := killed st;
         killTimer := killTimer st; killTimerPending := killTimerPending st;
         safetyPending := safetyPending st;
         stdout := stdout st; stderr := stderr st; sent := sent st;
         settled := settled st |}
  | OnExit code sig => on_exit o code sig st
  | KillTimerFires =>
      (* a timer that was never set, was cleared or has fired does not fire *)
      if killTimerPending st then
        let st1 :=
          {| messages := messages st; workerError := workerError st;
             killed := killed st; killTimer := killTimer st;
             killTimerPending := false; safetyPending := safetyPending st;
             stdout := stdout st; stderr := stderr st; sent := sent st;
             settled := settled st |} in
        if negb (killed st1) then kill_with (signal o) false st1 else st1
      else st
  | SafetyTimerFires =>
      if safetyPending st then
        let st1 :=
          {| messages := messages st; workerError := workerError st;
             killed := killed st; killTimer := killTimer st;
             killTimerPending := killTimerPending st; safetyPending := false;
             stdout := stdout st; stderr := stderr st; sent := sent st;
             settled := settled st |} in
        if negb (killed st1) then kill_with "SIGKILL" false st1 else st1
      else st
  end.

(** The bookkeeping of the [killed] flag: either nothing was sent and the
    flag is down, or one signal was sent and the flag is up. *)
Definition one_kill_at_most (st : hstate) : Prop :=
  (killed st = false ∧ sent st = []) ∨ (killed st = true ∧ ∃ sig, sent st = [sig]).

(** An event before the trigger: not a message equal to [k], and not the
    expiry of the safety timer. *)
Definition before_trigger (k : string) (e : event) : Prop :=
  match e with
  | OnMessage m => strict_eq m k = false
  | SafetyTimerFires => False
  | _ => True
  end.

Definition run (o : options) (st : hstate) (evs : list event) : hstate :=
  fold_left (step o) evs st.

(** [crashTest(options)] observed after the events [evs]. *)
Definition crashTest (o : options) (evs : list event) : hstate := run o (init o) evs.

Record CrashTestResult : Type := {
  workerKilled : bool;
  r_workerError : option string;
  workerMessages : list ipc_msg;
  workerExitCode : option Z;
  workerSignal : option string;
  r_stdout : string;
  r_stderr : string
}.

(** The value of the promise as its holder reads it now: [None] while it is
    pending. *)
Definition result (st : hstate) : option CrashTestResult :=
  match settled st with
  | None => None
  | Some r =>
      Some {| workerKilled := s_workerKilled r; r_workerError := s_workerError r;
              workerMessages := messages st;
              workerExitCode := s_workerExitCode r; workerSignal := s_workerSignal r;
              r_stdout := s_stdout r; r_stderr := s_stderr r |}
  end.

(** *** [tryOpen] (harness.js:148) *)

(** What settles while [Promise.race] is awaited, in the order it happens. *)
Inductive settle_event : Type :=
| WaitReadyFulfils
| WaitReadyRejects (err : string)
| TimeoutFires.

Definition timeoutMessage (timeoutMs : N) : string :=
  "PGlite open timed out after " +:+ toString (Z.of_N timeoutMs) +:+
  "ms (likely corrupted)".

(** [Promise.race([db.waitReady, timeout])]: the first settlement decides;
    [None] while nothing has settled, [Some (inl e)] is a rejection. *)
Definition race (timeoutMs : N) (evs : list settle_event) : option (string + unit) :=
  match evs with
  | [] => None
  | WaitReadyFulfils :: _ => Some (inr tt)
  | WaitReadyRejects e :: _ => Some (inl e)
  | TimeoutFires :: _ => Some (inl (timeoutMessage timeoutMs))
  end.

(** How a caller tells the timeout from another failure: by the message. *)
Definition is_timeout_message (m : string) : bool :=
  String.prefix "PGlite open timed out after " m.

Section TryOpen.
Context {Db : Type}.

Record open_result : Type := {
  success : bool;
  db : option Db;
  error : option string                (* the message of the caught error *)
}.

(** [ctor] is what [new PGlite(dataDir)] does: throw or return a handle. *)
Definition tryOpen (ctor : string + Db) (timeoutMs : N) (evs : list settle_event)
  : option open_result :=
  match ctor with
  | inl e => Some {| success := false; db := None; error := Some e |}
  | inr d =>
      match race timeoutMs evs with
      | None => None
      | Some (inr _) => Some {| success := true; db := Some d; error := None |}
      | Some (inl e) => Some {| success := false; db := None; error := Some e |}
      end
  end.
End TryOpen.
Arguments open_result : clear implicits.

(** *** [verifyIntegrity] (harness.js:176) *)

Record row : Type := { tablename : string; indexname : string }.

Record IntegrityReport : Type := { intact : bool; issues : list string }.

Definition sql_health : string := "SELECT 1 as health_check".

Definition sql_tables : string :=
  nl +:+ "      SELECT tablename FROM pg_tables" +:+
  nl +:+ "      WHERE schemaname = 'public'" +:+
  nl +:+ "      ORDER BY tablename" +:+
  nl +:+ "    ".

Definition sql_indexes : string :=
  nl +:+ "      SELECT indexname, tablename FROM pg_indexes" +:+
  nl +:+ "      WHERE schemaname = 'public'" +:+
  nl +:+ "      ORDER BY indexname" +:+
  nl +:+ "    ".

Definition sql_count (table : string) : string :=
  "SELECT count(*) FROM " +:+ dquote +:+ table +:+ dquote.

Section VerifyIntegrity.
(** The engine behind the handle: a statement changes its state and
    returns rows or throws an error with a message. *)
Context {S : Type} (query : S -> string -> S * (string + list row)).

(** The bodies of the two [for] loops. *)
Fixpoint count_tables (s : S) (rows : list row) (iss : list string)
  : S * list string :=
  match rows with
  | [] => (s, iss)
  | r :: rows' =>
      match query s (sql_count (tablename r)) with
      | (s', inl e) =>
          count_tables s' rows'
            (iss ++ ["Count on " +:+ tablename r +:+ " failed: " +:+ e])
      | (s', inr _) => count_tables s' rows' iss
      end
  end.

Fixpoint check_indexes (s : S) (rows : list row) (iss : list string)
  : S * list string :=
  match rows with
  | [] => (s, iss)
  | r :: rows' =>
      match query s (sql_count (tablename r)) with
      | (s', inl e) =>
          check_indexes s' rows'
            (iss ++ ["Index check on " +:+ indexname r +:+ " failed: " +:+ e])
      | (s', inr _) => check_indexes s' rows' iss
      end
  end.

(** The statements [stmts] run one after the other, whatever each
    returns. *)
Fixpoint exec (s : S) (stmts : list string) : S * list (string + list row) :=
  match stmts with
  | [] => (s, [])
  | q :: qs =>
      let '(s1, r) := query s q in
      let '(s2, rs) := exec s1 qs in
      (s2, r :: rs)
  end.

(** One issue for each row whose statement threw, in the order of the
    rows. *)
Fixpoint failures (fmt : row -> string -> string) (rows : list row)
    (results : list (string + list row)) : list string :=
  match rows, results with
  | r :: rows', inl e :: results' => fmt r e :: failures fmt rows' results'
  | _ :: rows', inr _ :: results' => failures fmt rows' results'
  | _, _ => []
  end.

Definition count_issue (r : row) (e : string) : string :=
  "Count on " +:+ tablename r +:+ " failed: " +:+ e.

Definition index_issue (r : row) (e : string) : string :=
  "Index check on " +:+ indexname r +:+ " failed: " +:+ e.

Definition count_stmt (r : row) : string := sql_count (tablename r).

(** The second [try] block. *)
Definition table_layer (s : S) (iss : list string) : S * list string :=
  match query s sql_tables with
  | (s', inl e) => (s', iss ++ ["Table listing failed: " +:+ e])
  | (s', inr rows) => count_tables s' rows iss
  end.

(** The third [try] block. *)
Definition index_layer (s : S) (iss : list string) : S * list string :=
  match query s sql_indexes with
  | (s', inl e) => (s', iss ++ ["Index listing failed: " +:+ e])
  | (s', inr rows) => check_indexes s' rows iss
  end.

Definition verifyIntegrity (s : S) : S * IntegrityReport :=
  match query s sql_health with
  | (s1, inl e) =>
      (s1, {| intact := false; issues := ["Basic query failed: " +:+ e] |})
  | (s1, inr _) =>
      let '(s2, iss2) := table_layer s1 [] in
      let '(s3, iss3) := index_layer s2 iss2 in
      (s3, {| intact := length iss3 =? 0; issues := iss3 |})
  end.
End VerifyIntegrity.

(** An engine whose answer depends on the statement only. *)
Definition stateless (answer : string -> string + list row)
  : unit -> string -> unit * (string + list row) :=
  fun s q => (s, answer q).

(** *** [spawnAndKill] (rapid-kill-cycles.test.js:65)

    The same shape as [crashTest], with a trigger that is a string or a
    predicate, a delay that can be set beside the trigger, SIGKILL as the only
    signal, and no handler for the child's [error] event. *)

Inductive sk_trigger : Type :=
| TriggerString (k : string)
| TriggerPredicate (p : ipc_msg -> bool).

Record killStrategy : Type := {
  onMessage : option sk_trigger;         (* None = undefined *)
  afterMs : option N                     (* None = undefined or null *)
}.

(** [killStrategy.onMessage] when it is truthy. *)
Definition sk_truthy (ks : killStrategy) : option sk_trigger :=
  match onMessage ks with
  | Some (TriggerString EmptyString) => None
  | other => other
  end.

(** The two branches on [typeof killStrategy.onMessage]. *)
Definition sk_matches (t : sk_trigger) (msg : ipc_msg) : bool :=
  match t with
  | TriggerString k => strict_eq msg k
  | TriggerPredicate p => p msg
  end.

Inductive sk_event : Type :=
| SkStdout (d : string)
| SkStderr (d : string)
| SkMessage (msg : ipc_msg)
| SkExit (code : option Z) (sig : option string)
| SkKillTimerFires
| SkSafetyTimerFires.

Definition sk_init (ks : killStrategy) : hstate :=
  let timer := match afterMs ks with Some _ => true | None => false end in
  {| messages := []; workerError := None; killed := false;
     killTimer := timer; killTimerPending := timer; safetyPending := true;
     stdout := EmptyString; stderr := EmptyString; sent := []; settled := None |}.

Definition sk_step (ks : killStrategy) (st : hstate) (e : sk_event) : hstate :=
  match e with
  | SkStdout d => step default_options st (OnStdout d)
  | SkStderr d => step default_options st (OnStderr d)
  | SkMessage msg =>
      let st1 :=
        {| messages := messages st ++ [msg]; workerError := workerError st;
           killed := killed st; killTimer := killTimer st;
           killTimerPending := killTimerPending st; safetyPending := safetyPending st;
           stdout := stdout st; stderr := stderr st; sent := sent st;
           settled := settled st |} in
      match sk_truthy ks with
      | Some t => if negb (killed st1) && sk_matches t msg
                  then kill_with "SIGKILL" true st1 else st1
      | None => st1
      end
  | SkExit code sig => on_exit default_options code sig st
  | SkKillTimerFires => step default_options st KillTimerFires
  | SkSafetyTimerFires => step default_options st SafetyTimerFires
  end.

(** [spawnAndKill(workerPath, env, killStrategy)] observed after [evs]. *)
Definition spawnAndKill (ks : killStrategy) (evs : list sk_event) : hstate :=
  fold_left (sk_step ks) evs (sk_init ks).

(** *** Reading the transcript off the events *)

Definition messages_of (evs : list event) : list ipc_msg :=
  omap (fun e => match e with OnMessage m => Some m | _ => None end) evs.

Fixpoint stdout_of (evs : list event) : string :=
  match evs with
  | [] => EmptyString
  | OnStdout d :: evs' => d +:+ stdout_of evs'
  | _ :: evs' => stdout_of evs'
  end.

Fixpoint stderr_of (evs : list event) : string :=
  match evs with
  | [] => EmptyString
  | OnStderr d :: evs' => d +:+ stderr_of evs'
  | _ :: evs' => stderr_of evs'
  end.

Definition is_exit (e : event) : bool :=
  match e with OnExit _ _ => true | _ => false end.

Definition is_message (e : event) : bool :=
  match e with OnMessage _ => true | _ => false end.

(** An event before any timer has expired and before the worker's exit. *)
Definition before_timers (e : event) : Prop :=
  match e with
  | KillTimerFires | SafetyTimerFires | OnExit _ _ => False
  | _ => True
  end.

End Harness.

(** ** The corruption classifier *)

Module Classifier.
Import Harness.

Inductive label : Type :=
| OPEN_FAILURE | INTEGRITY_FAILURE | DATA_INCONSISTENCY | WRITE_FAILURE | NONE.

#[global] Instance label_eq_dec : EqDecision label.
Proof. solve_decision. Defined.

Definition label_code (l : label) : nat :=
  match l with
  | OPEN_FAILURE => 0 | INTEGRITY_FAILURE => 1 | DATA_INCONSISTENCY => 2
  | WRITE_FAILURE => 3 | NONE => 4
  end.

Definition label_of_code (n : nat) : label :=
  match n with
  | 0 => OPEN_FAILURE | 1 => INTEGRITY_FAILURE | 2 => DATA_INCONSISTENCY
  | 3 => WRITE_FAILURE | _ => NONE
  end.

#[global] Instance label_countable : Countable label.
Proof.
  refine (inj_countable' label_code label_of_code _).
  intros l. destruct l; reflexivity.
Defined.

(** Modelled from the spec: the repository has no scenario-result type. This
    is one reopening of the directory after a kill: the [tryOpen] result, the
    [verifyIntegrity] report when one was taken, the outcome of each
    cross-check ([true] = passed) and of the write probe when it ran. *)
Record verification (Db : Type) : Type := {
  opened : open_result Db;
  integrity : option IntegrityReport;
  crossChecks : list bool;
  writeProbe : option bool
}.
Arguments opened {Db}.
Arguments integrity {Db}.
Arguments crossChecks {Db}.
Arguments writeProbe {Db}.

Definition integrity_failed {Db} (v : verification Db) : bool :=
  match integrity v with Some rep => negb (intact rep) | None => false end.

Definition integrity_passed {Db} (v : verification Db) : bool :=
  match integrity v with Some rep => intact rep | None => false end.

Definition cross_check_failed {Db} (v : verification Db) : bool :=
  existsb negb (crossChecks v).

Definition write_probe_failed {Db} (v : verification Db) : bool :=
  match writeProbe v with Some ok => negb ok | None => false end.

(** Modelled from the spec: the repository has no classifier function (the
    tests assert on the [tryOpen] and [verifyIntegrity] results in line), so
    the conditions below are those of section 4.6 of the specification, one
    per label. *)
Definition applies {Db} (l : label) (v : verification Db) : bool :=
  match l with
  | OPEN_FAILURE => negb (success (opened v))
  | INTEGRITY_FAILURE => success (opened v) && integrity_failed v
  | DATA_INCONSISTENCY =>
      success (opened v) && integrity_passed v && cross_check_failed v
  | WRITE_FAILURE =>
      success (opened v) && negb (integrity_failed v) &&
      negb (cross_check_failed v) && write_probe_failed v
  | NONE => false
  end.

Definition failure_labels : list label :=
  [OPEN_FAILURE; INTEGRITY_FAILURE; DATA_INCONSISTENCY; WRITE_FAILURE].

(** Modelled from the spec: the failure labels that apply to a
    verification, as a set. *)
Definition labels_of {Db} (v : verification Db) : gset label :=
  list_to_set (filter (fun l => applies l v = true) failure_labels).

(** Modelled from the spec: a scenario result is the sequence of its
    verifications; the classifier returns every failure label that applies
    to one of them, and [NONE] when there is none. *)
Definition classify {Db} (r : list (verification Db)) : gset label :=
  let found := ⋃ (labels_of <$> r) in
  if decide (found = ∅) then {[ NONE ]} else found.

End Classifier.

(** ** [harness.js]: the helpers that name and remove data directories *)

Module HarnessFiles.
Import JS NodeFS.

(** [rmSync(p, { recursive: true, force: true })] *)
Definition rmSync_rf (f : gmap string node) (p : string) : gmap string node := delete p f.

(** [rmSync(p, { force: true })]: a missing path is not an error, a
    directory is. *)
Definition rmSync_f (f : gmap string node) (p : string) : thrown + gmap string node :=
  match f !! p with
  | Some (Dir _) =>
      inl (FsErr "ERR_FS_EISDIR" ("Path is a directory: rm returned EISDIR " +:+
                                  "(is a directory) " +:+ p))
  | _ => inr (delete p f)
  end.

(** [cleanupDataDir(dataDir)] (harness.js:233): the file system it leaves,
    and the exception that left it, if any. *)
Definition cleanupDataDir (f : gmap string node) (dataDir : string)
  : gmap string node * option thrown :=
  let f1 := if existsSync f dataDir [] then rmSync_rf f dataDir else f in
  let lockFile := dataDir +:+ ".lock" in
  if existsSync f1 lockFile [] then
    match rmSync_f f1 lockFile with
    | inl e => (f1, Some e)
    | inr f2 => (f2, None)
    end
  else (f1, None).

(** [testDataDir(scenarioName)] (harness.js:247); [now] is [Date.now()] and
    [rand] is [Math.random().toString(36).slice(2, 8)]. *)
Definition testDataDir (scenarioName : string) (now : Z) (rand : string) : string :=
  "/tmp/pglite-crash-" +:+ scenarioName +:+ "-" +:+ toString now +:+ "-" +:+ rand.

End HarnessFiles.

(** ** Concrete hosts, directories and engines used in the examples *)

Module Fixtures.
Import JS NodeFS Harness.

(** A host running as pid 42 whose only other process is pid 7; signal 0
    to pid 0 goes to the caller's own process group and succeeds. *)
Definition host : os :=
  {| self_pid := 42; date_now := 1700000000000;
     iso_now := "2024-01-01T10:11:12.123Z";
     kill0 := fun p => if (p =? 7)%Z || (p =? 0)%Z || (p =? 42)%Z
                       then None else Some ESRCH |}.

(** A host on which pid 7 runs under another user. *)
Definition host_foreign : os :=
  {| self_pid := 42; date_now := 1700000000000;
     iso_now := "2024-01-01T10:11:12.123Z";
     kill0 := fun p => if (p =? 7)%Z then Some EPERM else Some ESRCH |}.

Definition lock_text (pid : string) : string :=
  pid +:+ nl +:+ "1699999999999" +:+ nl.

Definition lock_of (pid : string) : node := File (lock_text pid).

Definition world (root : node) (lock : option node) : state :=
  {| fs := match lock with
           | Some l => {[ "/tmp/db" := root; "/tmp/db.lock" := l ]}
           | None => {[ "/tmp/db" := root ]}
           end;
     fds := [Some "/dev/stdin"; Some "/dev/stdout"; Some "/dev/stderr"];
     lockFd := None; warnings := [] |}.

Definition full_base : node :=
  Dir [("1", Dir []); ("4", Dir []); ("5", Dir [])].

(** A directory that initdb finished. *)
Definition initialised : list (string * node) :=
  [("PG_VERSION", File "16"); ("base", full_base); ("global", Dir [])].

(** initdb killed before it wrote PG_VERSION. *)
Definition barely_started : list (string * node) :=
  [("postgresql.conf", File EmptyString)].

(** The same directory on a machine where an earlier quarantine of this
    very millisecond, or anything else, has left a directory under the name
    the backup would get. *)
Definition backup_name_taken : state :=
  set_fs (world (Dir barely_started) None)
    (<["/tmp/db.corrupt-2024-01-01T10-11-12-123Z" := Dir [("PG_VERSION", File "16")]]>
       (fs (world (Dir barely_started) None))).

(** initdb killed while it was copying template1. *)
Definition half_copied : list (string * node) :=
  [("PG_VERSION", File "16"); ("base", Dir [("1", Dir [])])].

(** initdb killed before base existed. *)
Definition no_base : list (string * node) :=
  [("PG_VERSION", File "16")].

(** A crash test that sends SIGTERM after the default delay. *)
Definition sigterm_after_delay : options :=
  {| killAfterMs := 500%N; signal := "SIGTERM"; killOnMessage := None |}.

(** A crash test that kills on the message [inserting]. *)
Definition kill_on_inserting : options :=
  {| killAfterMs := 500%N; signal := "SIGKILL"; killOnMessage := Some "inserting" |}.

(** A crash test that sends SIGTERM on the message [inserting]. *)
Definition sigterm_on_inserting : options :=
  {| killAfterMs := 500%N; signal := "SIGTERM"; killOnMessage := Some "inserting" |}.

(** A reopening that ran into the timeout. *)
Definition timed_out : Classifier.verification unit :=
  {| Classifier.opened :=
       {| success := false; db := None; error := Some (timeoutMessage 15000%N) |};
     Classifier.integrity := None;
     Classifier.crossChecks := [];
     Classifier.writeProbe := None |}.

(** A reopening that succeeded on a directory with an unreadable table. *)
Definition damaged : Classifier.verification unit :=
  {| Classifier.opened := {| success := true; db := Some tt; error := None |};
     Classifier.integrity :=
       Some {| intact := false;
               issues := ["Count on orders failed: invalid page in block 0"%string] |};
     Classifier.crossChecks := [];
     Classifier.writeProbe := None |}.

(** A reopening after which everything checked out. *)
Definition recovered : Classifier.verification unit :=
  {| Classifier.opened := {| success := true; db := Some tt; error := None |};
     Classifier.integrity := Some {| intact := true; issues := [] |};
     Classifier.crossChecks := [true; true];
     Classifier.writeProbe := Some true |}.

(** An engine that keeps the log of its statements and fails the health
    check. *)
Definition dead_engine (log : list string) (q : string)
  : list string * (string + list row) :=
  (log ++ [q],
   if String.eqb q sql_health then inl "could not open relation" else inr []).

Definition users : row := {| tablename := "users"; indexname := EmptyString |}.
Definition orders : row := {| tablename := "orders"; indexname := EmptyString |}.
Definition orders_pkey : row := {| tablename := "orders"; indexname := "orders_pkey" |}.

(** An engine that keeps the log of its statements, has the tables [users]
    and [orders] and the index [orders_pkey], and cannot read [orders]. *)
Definition damaged_engine (log : list string) (q : string)
  : list string * (string + list row) :=
  (log ++ [q],
   if String.eqb q sql_tables then inr [orders; users]
   else if String.eqb q sql_indexes then inr [orders_pkey]
   else if String.eqb q (sql_count "orders") then inl "invalid page in block 0"
   else inr []).
(** The host of [host] before pid 42 took over: the lock is taken by pid 99,
    which is gone by the time [host] looks. *)
Definition host_after_crash : os :=
  {| self_pid := 99; date_now := 1699999990000;
     iso_now := "2024-01-01T10:11:02.000Z";
     kill0 := fun p => if (p =? 99)%Z then None else Some ESRCH |}.

(** A machine on which the data directory was never created. *)
Definition nothing : state :=
  {| fs := {[ "/tmp/other" := Dir [] ]};
     fds := [Some "/dev/stdin"; Some "/dev/stdout"; Some "/dev/stderr"];
     lockFd := None; warnings := [] |}.

(** A crash test whose [killOnMessage] is the empty string. *)
Definition empty_trigger : options :=
  {| killAfterMs := 300%N; signal := "SIGKILL"; killOnMessage := Some EmptyString |}.

(** A strategy of [rapid-kill-cycles.test.js]: kill on a message that starts
    with [ddl], or after two seconds. *)
Definition kill_on_ddl_or_late : killStrategy :=
  {| onMessage :=
       Some (TriggerPredicate
               (fun m => match m with
                         | MsgStr s => String.prefix "ddl" s
                         | MsgObj _ => false
                         end));
     afterMs := Some 2000%N |}.

(** The answers of an engine with the tables [orders] and [users] and the
    index [orders_pkey], all readable. *)
Definition sound_answers (q : string) : string + list row :=
  if String.eqb q sql_tables then inr [orders; users]
  else if String.eqb q sql_indexes then inr [orders_pkey]
  else inr [].

End Fixtures.

(** * Properties *)

(** ** Strings *)

Section StringFacts.
Import JS.

Lemma str_app_nil_l (s : string) : EmptyString +:+ s = s.
Proof. reflexivity. Qed.

Lemma str_app_cons (c : ascii) (a b : string) : String c a +:+ b = String c (a +:+ b).
Proof. reflexivity. Qed.

Lemma str_prefix_append (n b : string) : String.prefix n (n +:+ b) = true.
Proof.
  induction n as [|c n IH]; rewrite ?str_app_nil_l, ?str_app_cons; simpl.
  - destruct b; reflexivity.
  - destruct (ascii_dec c c) as [_|Hne]; [exact IH | contradiction].
Qed.

Lemma includes_prefix (n h : string) : String.prefix n h = true → includes n h = true.
Proof. intros H. destruct h; simpl in *; rewrite H; reflexivity. Qed.

Lemma str_append_length (a b : string) :
  String.length (a +:+ b) = String.length a + String.length b.
Proof.
  induction a as [|x a IH]; rewrite ?str_app_nil_l, ?str_app_cons; simpl;
    [reflexivity | by rewrite IH].
Qed.

Lemma str_append_cons_ne (a : string) (c : ascii) (b : string) : a +:+ String c b ≠ a.
Proof.
  intros H. apply (f_equal String.length) in H.
  rewrite str_append_length in H. simpl in H. lia.
Qed.

Lemma split_not_nil (c : ascii) (s : string) : split c s ≠ [].
Proof.
  destruct s as [|x s]; simpl; [discriminate|].
  destruct (Ascii.eqb x c); [discriminate|].
  destruct (split c s); discriminate.
Qed.

Lemma split_no_sep (c : ascii) (t : string) : no_sep c t = true → split c t = [t].
Proof.
  induction t as [|x t IH]; simpl; [reflexivity|].
  intros [Hx Ht]%andb_true_iff. apply negb_true_iff in Hx. rewrite Hx.
  by rewrite (IH Ht).
Qed.

Lemma split_app_no_sep (c : ascii) (r t : string) :
  no_sep c t = true →
  split c (r +:+ t) =
  List.removelast (split c r) ++ [List.last (split c r) EmptyString +:+ t].
Proof.
  intros Ht. induction r as [|x r IH].
  - rewrite str_app_nil_l. simpl. by apply split_no_sep.
  - rewrite str_app_cons. cbn [split]. rewrite IH. clear IH.
    pose proof (split_not_nil c r) as Hne.
    destruct (Ascii.eqb x c).
    + destruct (split c r) as [|h tl]; [done|]. reflexivity.
    + destruct (split c r) as [|h [|h2 tl]]; [done| reflexivity | reflexivity].
Qed.

(** The lock record of pid 4242, read back the way [#acquireLock] reads it. *)
Example parse_lock_record :
  split nl_char (trim ("4242" +:+ nl +:+ "1700000000000" +:+ nl)) =
    ["4242"%string; "1700000000000"%string] ∧
  parseInt "4242" = Some 4242%Z ∧
  parseInt "12abc" = Some 12%Z ∧
  parseInt "-5" = Some (-5)%Z ∧
  parseInt "garbage" = None ∧
  parseInt EmptyString = None.
Proof. vm_compute. repeat split. Qed.
End StringFacts.

(** ** The lock file *)

Section LockFacts.
Import JS NodeFS.
Implicit Types (o : os) (rootDir raw : string) (st : state) (pid : Z).

Lemma str_prefix_app_r (n h b : string) :
  String.prefix n h = true → String.prefix n (h +:+ b) = true.
Proof.
  revert h. induction n as [|c n IH]; intros h H.
  - destruct (h +:+ b); reflexivity.
  - destruct h as [|x h]; [discriminate|].
    rewrite str_app_cons. simpl in *.
    destruct (ascii_dec c x); [by apply IH | discriminate].
Qed.

Lemma includes_app_r (n h b : string) :
  includes n h = true → includes n (h +:+ b) = true.
Proof.
  induction h as [|x h IH]; intros H.
  - simpl in H. rewrite orb_false_r in H.
    apply includes_prefix. rewrite <- (str_app_nil_l b) at 1.
    destruct n; [|discriminate]. destruct (EmptyString +:+ b); reflexivity.
  - rewrite str_app_cons. cbn [includes] in *.
    apply orb_true_iff in H as [H|H].
    + apply (str_prefix_app_r _ (String x h) b) in H.
      rewrite str_app_cons in H. rewrite H. reflexivity.
    + rewrite (IH H). apply orb_true_r.
Qed.

Lemma includes_app_l (n a h : string) :
  includes n h = true → includes n (a +:+ h) = true.
Proof.
  intros H. induction a as [|x a IH]; [exact H|].
  rewrite str_app_cons. simpl. rewrite IH. apply orb_true_r.
Qed.

(** The lock error is recognised by the [catch] of [#acquireLock]. *)
Lemma locked_message_is_rethrown rootDir pid lockPath :
  includes "is locked by" (message (LockedErr rootDir pid lockPath)) = true.
Proof.
  unfold message.
  do 4 apply includes_app_l. apply includes_app_r. reflexivity.
Qed.

Lemma alloc_fd_lookup (tbl : list (option string)) (p : string) :
  snd (alloc_fd tbl p) !! fst (alloc_fd tbl p) = Some (Some p).
Proof.
  induction tbl as [|[q|] tbl IH]; simpl; [reflexivity | | reflexivity].
  destruct (alloc_fd tbl p) as [n t']. exact IH.
Qed.

(** What the guard before the write decides, read off the lock record. *)
Lemma acquireLock_check_spec o rootDir st :
  acquireLock_check o rootDir st =
  match fs st !! lockPathOf rootDir with
  | Some (File raw) =>
      match ownerPid raw with
      | Some p => if isProcessAlive o p
                  then Some (LockedErr rootDir p (lockPathOf rootDir)) else None
      | None => None
      end
  | _ => None
  end.
Proof.
  unfold acquireLock_check, existsSync, stat, acquireLock_try, readFileSync, ownerPid.
  destruct (fs st !! lockPathOf rootDir) as [[raw|es]|]; simpl; [|reflexivity..].
  destruct (parseInt_at0 (split nl_char (trim raw))) as [p|]; simpl; [|reflexivity].
  destruct (p =? 0)%Z; simpl; [reflexivity|].
  destruct (isProcessAlive o p); [|reflexivity].
  by rewrite locked_message_is_rethrown.
Qed.

(** Past the guard, with no directory in the way, the record is written
    and the descriptor stays in the table and in [#lockFd]. *)
Lemma acquireLock_writes o rootDir st :
  acquireLock_check o rootDir st = None →
  (∀ es, fs st !! lockPathOf rootDir ≠ Some (Dir es)) →
  acquireLock o rootDir st =
  ({| fs := <[lockPathOf rootDir := File (lockRecord o)]> (fs st);
      fds := snd (alloc_fd (fds st) (lockPathOf rootDir));
      lockFd := Some (fst (alloc_fd (fds st) (lockPathOf rootDir)));
      warnings := warnings st |}, None).
Proof.
  intros Hc Hd. unfold acquireLock. rewrite Hc.
  unfold openSync_w.
  pose proof (alloc_fd_lookup (fds st) (lockPathOf rootDir)) as Hfd.
  destruct (alloc_fd (fds st) (lockPathOf rootDir)) as [fd tbl]; simpl in Hfd.
  assert (Hw : ∀ f0 : gmap string node,
    writeSync {| fs := <[lockPathOf rootDir := File EmptyString]> f0; fds := tbl;
                 lockFd := Some fd; warnings := warnings st |} fd (lockRecord o) =
    inr {| fs := <[lockPathOf rootDir := File (lockRecord o)]> f0; fds := tbl;
           lockFd := Some fd; warnings := warnings st |}).
  { intros f0. unfold writeSync, set_fs; simpl. rewrite Hfd, lookup_insert_eq.
    rewrite str_app_nil_l, insert_insert_eq. reflexivity. }
  destruct (fs st !! lockPathOf rootDir) as [[raw|es]|] eqn:E; simpl.
  - by rewrite Hw.
  - by destruct (Hd es).
  - by rewrite Hw.
Qed.
End LockFacts.

Section LockClaims.
Import JS NodeFS.
Implicit Types (o : os) (rootDir raw : string) (st : state) (pid : Z).

(** A record without a live owner does not stop [#acquireLock]. *)
Lemma acquireLock_takes_over o rootDir st raw :
  fs st !! lockPathOf rootDir = Some (File raw) →
  (∀ p, ownerPid raw = Some p → isProcessAlive o p = false) →
  snd (acquireLock o rootDir st) = None ∧
  fs (fst (acquireLock o rootDir st)) !! lockPathOf rootDir = Some (File (lockRecord o)).
Proof.
  intros Hf Hdead.
  rewrite acquireLock_writes.
  - simpl. by rewrite lookup_insert_eq.
  - rewrite acquireLock_check_spec, Hf.
    destruct (ownerPid raw) as [p|]; [|reflexivity].
    by rewrite (Hdead p eq_refl).
  - intros es. rewrite Hf. discriminate.
Qed.

(** C1. [#acquireLock] throws the lock error naming [pid] exactly when the
    marker path holds a record file whose first line parses to the pid [pid]
    (a number that passes [pid && !isNaN(pid)]) and [pid] passes the liveness
    probe; it then writes nothing. A record whose owner is dead, and a record
    whose first line does not parse to a pid, are overwritten with the
    caller's own record, which is the caller's pid and the current time in
    milliseconds, in decimal, each followed by a line feed; no exception
    leaves the method. *)
Theorem acquireLock_held_iff_live_owner o rootDir st :
  (∀ pid,
      snd (acquireLock o rootDir st) = Some (LockedErr rootDir pid (lockPathOf rootDir)) ↔
      ∃ raw, fs st !! lockPathOf rootDir = Some (File raw) ∧
             ownerPid raw = Some pid ∧ isProcessAlive o pid = true) ∧
  (∀ r p l,
      snd (acquireLock o rootDir st) = Some (LockedErr r p l) →
      r = rootDir ∧ l = lockPathOf rootDir ∧ fst (acquireLock o rootDir st) = st) ∧
  (∀ raw pid,
      fs st !! lockPathOf rootDir = Some (File raw) →
      ownerPid raw = Some pid → isProcessAlive o pid = false →
      snd (acquireLock o rootDir st) = None ∧
      fs (fst (acquireLock o rootDir st)) !! lockPathOf rootDir =
        Some (File (toString (self_pid o) +:+ nl +:+ toString (date_now o) +:+ nl))) ∧
  (∀ raw,
      fs st !! lockPathOf rootDir = Some (File raw) →
      ownerPid raw = None →
      snd (acquireLock o rootDir st) = None ∧
      fs (fst (acquireLock o rootDir st)) !! lockPathOf rootDir =
        Some (File (toString (self_pid o) +:+ nl +:+ toString (date_now o) +:+ nl))).
Proof.
  assert (Hthrow : ∀ e, snd (acquireLock o rootDir st) = Some e →
            (acquireLock_check o rootDir st = Some e ∧ fst (acquireLock o rootDir st) = st) ∨
            (acquireLock_check o rootDir st = None ∧ ∃ c m, e = FsErr c m)).
  { intros e. unfold acquireLock.
    destruct (acquireLock_check o rootDir st) as [e0|] eqn:Hc; simpl.
    - intros [= ->]. by left.
    - intros He. right. split; [reflexivity|].
      destruct (openSync_w st (lockPathOf rootDir)) as [e1|[fd st1]] eqn:Ho.
      + simpl in He. injection He as <-. unfold openSync_w in Ho.
        destruct (fs st !! lockPathOf rootDir) as [[?|?]|];
          try (destruct (alloc_fd _ _); discriminate).
        injection Ho as <-. eauto.
      + destruct (writeSync _ fd (lockRecord o)) as [e2|st3] eqn:Hw; [|discriminate].
        simpl in He. injection He as <-. unfold writeSync in Hw.
        repeat case_match; simplify_eq; eauto. }
  split; [|split; [|split]].
  - intros pid. split.
    + intros He. destruct (Hthrow _ He) as [[Hc _]|[_ (c & m & ?)]]; [|discriminate].
      rewrite acquireLock_check_spec in Hc.
      destruct (fs st !! lockPathOf rootDir) as [[raw|?]|]; try discriminate.
      destruct (ownerPid raw) as [p|] eqn:Hp; [|discriminate].
      destruct (isProcessAlive o p) eqn:Ha; [|discriminate].
      injection Hc as ->. eauto.
    + intros (raw & Hf & Hp & Ha). unfold acquireLock.
      rewrite acquireLock_check_spec, Hf, Hp, Ha. reflexivity.
  - intros r p l He. destruct (Hthrow _ He) as [[Hc Hst]|[_ (c & m & ?)]]; [|discriminate].
    rewrite acquireLock_check_spec in Hc.
    destruct (fs st !! lockPathOf rootDir) as [[raw|?]|]; try discriminate.
    destruct (ownerPid raw) as [p0|]; [|discriminate].
    destruct (isProcessAlive o p0); [|discriminate].
    by injection Hc as -> -> ->.
  - intros raw pid Hf Hp Ha. apply (acquireLock_takes_over o rootDir st raw Hf).
    intros p. rewrite Hp. by intros [= <-].
  - intros raw Hf Hp. apply (acquireLock_takes_over o rootDir st raw Hf).
    intros p. rewrite Hp. discriminate.
Qed.

Lemma acquireLock_held_iff_live_owner_witness :
  snd (acquireLock Fixtures.host "/tmp/db"
         (Fixtures.world (Dir []) (Some (Fixtures.lock_of "7")))) =
    Some (LockedErr "/tmp/db" 7 "/tmp/db.lock") ∧
  snd (acquireLock Fixtures.host "/tmp/db"
         (Fixtures.world (Dir [])
            (Some (File (nbsp +:+ bom +:+ " 7" +:+ nl +:+ "1699999999999" +:+ nl))))) =
    Some (LockedErr "/tmp/db" 7 "/tmp/db.lock") ∧
  (snd (acquireLock Fixtures.host "/tmp/db"
          (Fixtures.world (Dir []) (Some (Fixtures.lock_of "8")))) = None ∧
   fs (fst (acquireLock Fixtures.host "/tmp/db"
          (Fixtures.world (Dir []) (Some (Fixtures.lock_of "8"))))) !! "/tmp/db.lock" =
     Some (File ("42" +:+ nl +:+ "1700000000000" +:+ nl))) ∧
  (snd (acquireLock Fixtures.host "/tmp/db"
          (Fixtures.world (Dir []) (Some (Fixtures.lock_of "garbage")))) = None ∧
   fs (fst (acquireLock Fixtures.host "/tmp/db"
          (Fixtures.world (Dir []) (Some (Fixtures.lock_of "garbage"))))) !! "/tmp/db.lock" =
     Some (File ("42" +:+ nl +:+ "1700000000000" +:+ nl))).
Proof.
  split; [|split; [|split]].
  - apply (proj1 (acquireLock_held_iff_live_owner Fixtures.host "/tmp/db" _) 7%Z).
    exists ("7" +:+ nl +:+ "1699999999999" +:+ nl). repeat split; vm_compute; reflexivity.
  - apply (proj1 (acquireLock_held_iff_live_owner Fixtures.host "/tmp/db" _) 7%Z).
    exists (nbsp +:+ bom +:+ " 7" +:+ nl +:+ "1699999999999" +:+ nl).
    repeat split; vm_compute; reflexivity.
  - apply (proj1 (proj2 (proj2 (acquireLock_held_iff_live_owner Fixtures.host "/tmp/db" _)))
             ("8" +:+ nl +:+ "1699999999999" +:+ nl) 8%Z); vm_compute; reflexivity.
  - apply (proj2 (proj2 (proj2 (acquireLock_held_iff_live_owner Fixtures.host "/tmp/db" _)))
             ("garbage" +:+ nl +:+ "1699999999999" +:+ nl)); vm_compute; reflexivity.
Defined.

(** C9. The probe answers [true] exactly when [process.kill(pid, 0)] returns
    and [false] whatever it throws, EPERM included: a record whose owner is
    alive under another user is overwritten like a stale one. *)
Theorem isProcessAlive_false_on_any_exception o :
  (∀ pid, isProcessAlive o pid = true ↔ kill0 o pid = None) ∧
  (∀ pid, isProcessAlive o pid = false ↔ ∃ e, kill0 o pid = Some e) ∧
  (∀ rootDir st raw pid,
      fs st !! lockPathOf rootDir = Some (File raw) →
      ownerPid raw = Some pid →
      kill0 o pid = Some EPERM →
      isProcessAlive o pid = false ∧
      snd (acquireLock o rootDir st) = None ∧
      fs (fst (acquireLock o rootDir st)) !! lockPathOf rootDir =
        Some (File (lockRecord o))).
Proof.
  split; [|split].
  - intros pid. unfold isProcessAlive. destruct (kill0 o pid); split; congruence.
  - intros pid. unfold isProcessAlive. destruct (kill0 o pid) as [e|]; split.
    + eauto.
    + reflexivity.
    + discriminate.
    + intros [e ?]. discriminate.
  - intros rootDir st raw pid Hf Hp Hk.
    assert (Ha : isProcessAlive o pid = false) by (unfold isProcessAlive; by rewrite Hk).
    split; [exact Ha|].
    apply (acquireLock_takes_over o rootDir st raw Hf).
    intros p. rewrite Hp. by intros [= <-].
Qed.

Lemma isProcessAlive_false_on_any_exception_witness :
  isProcessAlive Fixtures.host_foreign 7 = false ∧
  snd (acquireLock Fixtures.host_foreign "/tmp/db"
         (Fixtures.world (Dir []) (Some (Fixtures.lock_of "7")))) = None ∧
  fs (fst (acquireLock Fixtures.host_foreign "/tmp/db"
         (Fixtures.world (Dir []) (Some (Fixtures.lock_of "7"))))) !! lockPathOf "/tmp/db" =
    Some (File (lockRecord Fixtures.host_foreign)).
Proof.
  apply (proj2 (proj2 (isProcessAlive_false_on_any_exception Fixtures.host_foreign))
           "/tmp/db" _ ("7" +:+ nl +:+ "1699999999999" +:+ nl) 7%Z);
    vm_compute; reflexivity.
Defined.
End LockClaims.

Section LockPath.
Import JS NodeFS.
Implicit Types (o : os) (rootDir raw : string) (st : state) (pid : Z).

(** Appending a suffix without separator changes the last segment only. *)
Lemma segments_lockPath rootDir :
  segments (lockPathOf rootDir) =
  List.removelast (segments rootDir) ++
    [List.last (segments rootDir) EmptyString +:+ ".lock"].
Proof. unfold segments, lockPathOf. by apply split_app_no_sep. Qed.

Lemma removelast_snoc {A} (l : list A) (x : A) : List.removelast (l ++ [x]) = l.
Proof.
  induction l as [|a l IH]; [reflexivity|].
  simpl. destruct (l ++ [x]) eqn:E; [by destruct l | by rewrite IH].
Qed.

Lemma last_snoc {A} (l : list A) (x d : A) : List.last (l ++ [x]) d = x.
Proof.
  induction l as [|a l IH]; [reflexivity|].
  simpl. destruct (l ++ [x]) eqn:E; [by destruct l | exact IH].
Qed.

Lemma length_removelast_snoc {A} (l : list A) (x : A) :
  l ≠ [] → length (List.removelast l ++ [x]) = length l.
Proof.
  intros Hl. destruct (exists_last Hl) as (l' & a & ->).
  rewrite removelast_snoc, !length_app. reflexivity.
Qed.

(** C7. When [#acquireLock] returns normally, the marker file holds the
    caller's pid, a newline, the timestamp and a newline, and nothing else;
    the descriptor it was written through is in [#lockFd] and still open.
    The marker path is the data directory path followed by [.lock]: it has
    the directory's parent and another name, and, the directory path having
    no trailing separator, it is not below the directory. No other path is
    touched. *)
Theorem acquireLock_record_in_sibling_file o rootDir st st' :
  acquireLock o rootDir st = (st', None) →
  fs st' !! lockPathOf rootDir =
    Some (File (toString (self_pid o) +:+ nl +:+ toString (date_now o) +:+ nl)) ∧
  (∃ fd, lockFd st' = Some fd ∧ fds st' !! fd = Some (Some (lockPathOf rootDir))) ∧
  lockPathOf rootDir = rootDir +:+ ".lock" ∧
  List.removelast (segments (lockPathOf rootDir)) = List.removelast (segments rootDir) ∧
  List.last (segments (lockPathOf rootDir)) EmptyString =
    List.last (segments rootDir) EmptyString +:+ ".lock" ∧
  lockPathOf rootDir ≠ rootDir ∧
  (List.last (segments rootDir) EmptyString ≠ EmptyString →
   inside rootDir (lockPathOf rootDir) = false) ∧
  (∀ p, p ≠ lockPathOf rootDir → fs st' !! p = fs st !! p).
Proof.
  intros Hacq.
  assert (Hc : acquireLock_check o rootDir st = None).
  { unfold acquireLock in Hacq.
    destruct (acquireLock_check o rootDir st); [discriminate | reflexivity]. }
  assert (Hd : ∀ es, fs st !! lockPathOf rootDir ≠ Some (Dir es)).
  { intros es Hes. unfold acquireLock in Hacq. rewrite Hc in Hacq.
    unfold openSync_w in Hacq. rewrite Hes in Hacq. discriminate. }
  rewrite (acquireLock_writes o rootDir st Hc Hd) in Hacq.
  injection Hacq as <-. simpl.
  repeat split.
  - by rewrite lookup_insert_eq.
  - eexists. split; [reflexivity|]. apply alloc_fd_lookup.
  - rewrite segments_lockPath. apply removelast_snoc.
  - rewrite segments_lockPath. apply last_snoc.
  - apply str_append_cons_ne.
  - intros Hlast. unfold inside, dir_segments.
    destruct (List.last (segments rootDir) EmptyString) eqn:E; [done|].
    rewrite segments_lockPath, length_removelast_snoc by apply split_not_nil.
    apply andb_false_iff. left. apply Nat.ltb_irrefl.
  - intros p Hp. by rewrite lookup_insert_ne.
Qed.

Lemma acquireLock_record_in_sibling_file_witness :
  fs (fst (acquireLock Fixtures.host "/tmp/db" (Fixtures.world (Dir []) None)))
    !! "/tmp/db.lock" = Some (File ("42" +:+ nl +:+ "1700000000000" +:+ nl)) ∧
  lockFd (fst (acquireLock Fixtures.host "/tmp/db" (Fixtures.world (Dir []) None))) =
    Some 3 ∧
  inside "/tmp/db" "/tmp/db.lock" = false.
Proof.
  pose proof (acquireLock_record_in_sibling_file Fixtures.host "/tmp/db"
                (Fixtures.world (Dir []) None)
                (fst (acquireLock Fixtures.host "/tmp/db" (Fixtures.world (Dir []) None))))
    as H.
  destruct H as (Hrec & _ & _ & _ & _ & _ & Hin & _); [vm_compute; reflexivity|].
  split; [exact Hrec|]. split; [vm_compute; reflexivity|].
  apply Hin. vm_compute. discriminate.
Defined.

(** The boundary of the last part: at the root of the file system there is
    no sibling, and the marker lands in the directory itself. *)
Example lock_of_root_is_inside : inside "/" (lockPathOf "/") = true.
Proof. vm_compute. reflexivity. Qed.
End LockPath.

(** ** The partial-initialisation detector *)

Section PartialInit.
Import JS NodeFS.
Implicit Types (o : os) (rootDir : string) (st : state) (es dbs : list (string * node)).

Lemma backupPath_ne_rootDir o rootDir : backupPathOf o rootDir ≠ rootDir.
Proof. unfold backupPathOf. apply (str_append_cons_ne rootDir "."%char). Qed.

Lemma readdirSync_root st rootDir es :
  fs st !! rootDir = Some (Dir es) →
  readdirSync (fs st) rootDir [] = inr (map fst es).
Proof. intros H. unfold readdirSync, stat. by rewrite H. Qed.

Lemma existsSync_entry st rootDir es name :
  fs st !! rootDir = Some (Dir es) →
  existsSync (fs st) rootDir [name] =
  match lookup_entry name es with Some _ => true | None => false end.
Proof.
  intros H. unfold existsSync, stat. rewrite H. simpl.
  by destruct (lookup_entry name es).
Qed.

Lemma readdirSync_entry st rootDir es name dbs :
  fs st !! rootDir = Some (Dir es) →
  lookup_entry name es = Some (Dir dbs) →
  readdirSync (fs st) rootDir [name] = inr (map fst dbs).
Proof. intros H Hb. unfold readdirSync, stat. rewrite H. simpl. by rewrite Hb. Qed.

(** A directory that initdb finished is not touched. *)
Lemma cleanPartialInit_initialised o rootDir st es dbs :
  fs st !! rootDir = Some (Dir es) →
  is_Some (lookup_entry "PG_VERSION" es) →
  lookup_entry "base" es = Some (Dir dbs) → 3 ≤ length dbs →
  cleanPartialInit o rootDir st = st.
Proof.
  intros Hr [v Hv] Hbase Hge. unfold cleanPartialInit.
  rewrite (readdirSync_root st rootDir es Hr).
  rewrite !(existsSync_entry st rootDir es _ Hr), Hv, Hbase.
  rewrite (readdirSync_entry st rootDir es "base" dbs Hr Hbase), !length_map.
  destruct es; [discriminate|]. simpl.
  destruct (Nat.ltb_spec (length dbs) 3); [lia | reflexivity].
Qed.

(** The time stamp of the backup, character by character. *)
Lemma replace_colon_dot_get (s ts : string) :
  (∀ i, String.get i ts =
        (λ c, if Ascii.eqb c ":"%char || Ascii.eqb c "."%char then "-"%char else c)
          <$> String.get i s) →
  ts = replace_colon_dot s.
Proof.
  revert ts. induction s as [|c s IH]; intros ts H.
  - specialize (H 0). destruct ts; [reflexivity | discriminate H].
  - pose proof (H 0) as H0. destruct ts as [|d ts]; [discriminate H0|].
    simpl in H0. injection H0 as ->. simpl. f_equal.
    apply IH. intros i. exact (H (S i)).
Qed.

(** With the backup path free or an empty directory,
    [#moveDataDirToBackup] is the quarantine. *)
Lemma moveDataDirToBackup_moves o rootDir st es :
  fs st !! rootDir = Some (Dir es) →
  fs st !! backupPathOf o rootDir = None ∨
  fs st !! backupPathOf o rootDir = Some (Dir []) →
  moveDataDirToBackup o rootDir st = (quarantined o rootDir es st, None).
Proof.
  intros Hr Hb. unfold moveDataDirToBackup, renameSync, mkdirSync.
  rewrite Hr. destruct Hb as [-> | ->];
    rewrite lookup_insert_ne by apply backupPath_ne_rootDir;
    rewrite lookup_delete_eq; reflexivity.
Qed.

(** With a file or a directory that is not empty at the backup path the
    rename throws and nothing has changed. *)
Lemma moveDataDirToBackup_blocked o rootDir st es :
  fs st !! rootDir = Some (Dir es) →
  (∃ c, fs st !! backupPathOf o rootDir = Some (File c)) ∨
  (∃ e es', fs st !! backupPathOf o rootDir = Some (Dir (e :: es'))) →
  fst (moveDataDirToBackup o rootDir st) = st.
Proof.
  intros Hr Hb. unfold moveDataDirToBackup, renameSync.
  rewrite Hr. by destruct Hb as [[c ->] | (e & es' & ->)].
Qed.

(** Outside the cases of the claim: entries that cannot be listed leave the
    directory alone, whatever they are. *)
Lemma cleanPartialInit_unlistable_base o rootDir st es c :
  fs st !! rootDir = Some (Dir es) →
  is_Some (lookup_entry "PG_VERSION" es) →
  lookup_entry "base" es = Some (File c) →
  cleanPartialInit o rootDir st = st.
Proof.
  intros Hr [v Hv] Hbase. unfold cleanPartialInit.
  rewrite (readdirSync_root st rootDir es Hr).
  rewrite !(existsSync_entry st rootDir es _ Hr), Hv, Hbase.
  destruct es; [discriminate|]. simpl.
  unfold readdirSync, stat. rewrite Hr. simpl. by rewrite Hbase.
Qed.
(** C2, as the code has it. On a data directory with the entries [es],
    [#cleanPartialInit] does nothing when [es] is empty. The directory is
    partial when [es] is not empty and has no PG_VERSION, and when
    PG_VERSION is there but [base] is missing or is a directory with fewer
    than three entries. The backup path is the path of the directory, then
    [.corrupt-], then the time stamp [ts], which is the ISO time of the
    moment with every colon and every full stop replaced by a hyphen. A
    partial directory is quarantined when the backup path is free or holds
    an empty directory: it is found under the backup path, a fresh empty
    directory is in its place and one warning names the backup. When the
    backup path holds a file or a directory that is not empty, the rename
    throws, the exception is dropped and the partial directory stays where
    it is, unchanged. Nothing changes when PG_VERSION is there and [base]
    is a file, or has three entries or more, so that a second run changes
    nothing either and leaves no backup. *)
Theorem cleanPartialInit_quarantines_unless_backup_blocked o rootDir st es ts :
  fs st !! rootDir = Some (Dir es) →
  (∀ i, String.get i ts =
        (λ c, if Ascii.eqb c ":"%char || Ascii.eqb c "."%char then "-"%char else c)
          <$> String.get i (iso_now o)) →
  let backup := rootDir +:+ ".corrupt-" +:+ ts in
  let moved :=
    {| fs := <[rootDir := Dir []]> (<[backup := Dir es]> (delete rootDir (fs st)));
       fds := fds st; lockFd := lockFd st;
       warnings := warnings st ++ [backupWarning backup] |} in
  let outcome :=
    match fs st !! backup with
    | None | Some (Dir []) => moved
    | Some (File _) | Some (Dir (_ :: _)) => st
    end in
  (es = [] → cleanPartialInit o rootDir st = st) ∧
  (es ≠ [] → lookup_entry "PG_VERSION" es = None →
   cleanPartialInit o rootDir st = outcome) ∧
  (is_Some (lookup_entry "PG_VERSION" es) → lookup_entry "base" es = None →
   cleanPartialInit o rootDir st = outcome) ∧
  (∀ dbs, is_Some (lookup_entry "PG_VERSION" es) →
          lookup_entry "base" es = Some (Dir dbs) → length dbs < 3 →
          cleanPartialInit o rootDir st = outcome) ∧
  (∀ c, is_Some (lookup_entry "PG_VERSION" es) →
        lookup_entry "base" es = Some (File c) →
        cleanPartialInit o rootDir st = st) ∧
  (∀ dbs, is_Some (lookup_entry "PG_VERSION" es) →
          lookup_entry "base" es = Some (Dir dbs) → 3 ≤ length dbs →
          cleanPartialInit o rootDir st = st ∧
          cleanPartialInit o rootDir (cleanPartialInit o rootDir st) = st ∧
          fs (cleanPartialInit o rootDir (cleanPartialInit o rootDir st)) !! backup =
            fs st !! backup).
Proof.
  intros Hr Hts. apply replace_colon_dot_get in Hts. subst ts.
  fold (backupPathOf o rootDir). intros backup moved outcome.
  assert (Hmove : fst (moveDataDirToBackup o rootDir st) = outcome).
  { subst outcome moved backup.
    destruct (fs st !! backupPathOf o rootDir) as [[c|[|e es']]|] eqn:Hb.
    - apply (moveDataDirToBackup_blocked o rootDir st es Hr). left. eauto.
    - rewrite (moveDataDirToBackup_moves o rootDir st es Hr) by (by right).
      reflexivity.
    - apply (moveDataDirToBackup_blocked o rootDir st es Hr). right. eauto.
    - rewrite (moveDataDirToBackup_moves o rootDir st es Hr) by (by left).
      reflexivity. }
  clearbody outcome. clear moved.
  assert (Hlen : es ≠ [] → (length (map fst es) =? 0) = false).
  { intros Hne. destruct es; [done | reflexivity]. }
  assert (Hsome : is_Some (lookup_entry "PG_VERSION" es) → es ≠ []).
  { intros [n Hn] ->. discriminate. }
  split; [|split; [|split; [|split; [|split]]]].
  - intros ->. unfold cleanPartialInit.
    by rewrite (readdirSync_root st rootDir [] Hr).
  - intros Hne Hv. unfold cleanPartialInit.
    rewrite (readdirSync_root st rootDir es Hr), (Hlen Hne).
    rewrite (existsSync_entry st rootDir es _ Hr), Hv. simpl. exact Hmove.
  - intros Hv Hbase. unfold cleanPartialInit.
    rewrite (readdirSync_root st rootDir es Hr), (Hlen (Hsome Hv)).
    rewrite !(existsSync_entry st rootDir es _ Hr), Hbase.
    destruct Hv as [v ->]. simpl. exact Hmove.
  - intros dbs Hv Hbase Hlt. unfold cleanPartialInit.
    rewrite (readdirSync_root st rootDir es Hr), (Hlen (Hsome Hv)).
    rewrite !(existsSync_entry st rootDir es _ Hr), Hbase.
    rewrite (readdirSync_entry st rootDir es "base" dbs Hr Hbase), length_map.
    destruct Hv as [v ->]. simpl.
    destruct (Nat.ltb_spec (length dbs) 3); [|lia]. exact Hmove.
  - intros c Hv Hbase. exact (cleanPartialInit_unlistable_base o rootDir st es c Hr Hv Hbase).
  - intros dbs Hv Hbase Hge.
    rewrite !(cleanPartialInit_initialised o rootDir st es dbs Hr Hv Hbase Hge).
    done.
Qed.

Lemma cleanPartialInit_quarantines_unless_backup_blocked_witness :
  cleanPartialInit Fixtures.host "/tmp/db" (Fixtures.world (Dir []) None) =
    Fixtures.world (Dir []) None ∧
  cleanPartialInit Fixtures.host "/tmp/db"
      (Fixtures.world (Dir Fixtures.barely_started) None) =
    {| fs := {[ "/tmp/db"%string := Dir [];
                "/tmp/db.corrupt-2024-01-01T10-11-12-123Z"%string :=
                  Dir Fixtures.barely_started ]};
       fds := [Some "/dev/stdin"; Some "/dev/stdout"; Some "/dev/stderr"]%string;
       lockFd := None;
       warnings :=
         ["PGlite: Detected partially-initialized data directory. Moved to " +:+
          dquote +:+ "/tmp/db.corrupt-2024-01-01T10-11-12-123Z" +:+ dquote +:+
          " for recovery. A fresh database will be created."] |} ∧
  cleanPartialInit Fixtures.host "/tmp/db" Fixtures.backup_name_taken =
    Fixtures.backup_name_taken ∧
  fs (cleanPartialInit Fixtures.host "/tmp/db"
        (Fixtures.world (Dir Fixtures.no_base) None))
    !! "/tmp/db.corrupt-2024-01-01T10-11-12-123Z" = Some (Dir Fixtures.no_base) ∧
  fs (cleanPartialInit Fixtures.host "/tmp/db"
        (Fixtures.world (Dir Fixtures.half_copied) None))
    !! "/tmp/db.corrupt-2024-01-01T10-11-12-123Z" = Some (Dir Fixtures.half_copied) ∧
  cleanPartialInit Fixtures.host "/tmp/db"
      (Fixtures.world (Dir Fixtures.initialised) None) =
    Fixtures.world (Dir Fixtures.initialised) None.
Proof.
  assert (Hts : ∀ i, String.get i "2024-01-01T10-11-12-123Z" =
                     (λ c, if Ascii.eqb c ":"%char || Ascii.eqb c "."%char
                           then "-"%char else c)
                       <$> String.get i (iso_now Fixtures.host)).
  { intros i. do 24 (destruct i as [|i]; [reflexivity|]). reflexivity. }
  split; [|split; [|split; [|split; [|split]]]].
  - apply (proj1 (cleanPartialInit_quarantines_unless_backup_blocked Fixtures.host
                    "/tmp/db" (Fixtures.world (Dir []) None) [] _ eq_refl Hts) eq_refl).
  - rewrite (proj1 (proj2 (cleanPartialInit_quarantines_unless_backup_blocked
                    Fixtures.host "/tmp/db"
                    (Fixtures.world (Dir Fixtures.barely_started) None)
                    Fixtures.barely_started _ eq_refl Hts)));
      [vm_compute; reflexivity | discriminate | reflexivity].
  - rewrite (proj1 (proj2 (cleanPartialInit_quarantines_unless_backup_blocked
                    Fixtures.host "/tmp/db" Fixtures.backup_name_taken
                    Fixtures.barely_started _ eq_refl Hts)));
      [vm_compute; reflexivity | discriminate | reflexivity].
  - rewrite (proj1 (proj2 (proj2 (cleanPartialInit_quarantines_unless_backup_blocked
                    Fixtures.host "/tmp/db"
                    (Fixtures.world (Dir Fixtures.no_base) None)
                    Fixtures.no_base _ eq_refl Hts))));
      [vm_compute; reflexivity | eexists; reflexivity | reflexivity].
  - rewrite (proj1 (proj2 (proj2 (proj2
                    (cleanPartialInit_quarantines_unless_backup_blocked
                       Fixtures.host "/tmp/db"
                       (Fixtures.world (Dir Fixtures.half_copied) None)
                       Fixtures.half_copied _ eq_refl Hts))))
               [("1"%string, Dir [])]);
      [vm_compute; reflexivity | eexists; reflexivity | reflexivity | simpl; lia].
  - apply (proj2 (proj2 (proj2 (proj2 (proj2
                    (cleanPartialInit_quarantines_unless_backup_blocked
                       Fixtures.host "/tmp/db"
                       (Fixtures.world (Dir Fixtures.initialised) None)
                       Fixtures.initialised _ eq_refl Hts)))))
             [("1"%string, Dir []); ("4"%string, Dir []); ("5"%string, Dir [])]);
      [eexists; reflexivity | reflexivity | simpl; lia].
Defined.

(** C2, as the claim has it, fails: the directory has entries and no
    PG_VERSION, and a directory that is not empty is already at the path
    the backup would get. [fs.renameSync] throws ENOTEMPTY, the outer
    [catch] drops it, and the partial directory is neither renamed nor
    replaced by an empty one: nothing has changed and no warning is
    written. *)
Lemma cleanPartialInit_keeps_partial_dir_when_backup_name_taken :
  fs Fixtures.backup_name_taken !! "/tmp/db" = Some (Dir Fixtures.barely_started) ∧
  Fixtures.barely_started ≠ [] ∧
  lookup_entry "PG_VERSION" Fixtures.barely_started = None ∧
  snd (moveDataDirToBackup Fixtures.host "/tmp/db" Fixtures.backup_name_taken) =
    Some (FsErr "ENOTEMPTY" "ENOTEMPTY: directory not empty, rename") ∧
  cleanPartialInit Fixtures.host "/tmp/db" Fixtures.backup_name_taken =
    Fixtures.backup_name_taken ∧
  fs (cleanPartialInit Fixtures.host "/tmp/db" Fixtures.backup_name_taken) !! "/tmp/db" =
    Some (Dir Fixtures.barely_started) ∧
  warnings (cleanPartialInit Fixtures.host "/tmp/db" Fixtures.backup_name_taken) = [].
Proof. repeat split; try discriminate; vm_compute; reflexivity. Qed.

End PartialInit.

(** ** The crash-injection harness *)

Section CrashTest.
Import JS Harness.
Implicit Types (o : options) (st : hstate) (e : event) (evs pre post : list event).

Lemma run_app o st evs1 evs2 : run o st (evs1 ++ evs2) = run o (run o st evs1) evs2.
Proof. unfold run. apply fold_left_app. Qed.

Lemma run_snoc o st evs e : run o st (evs ++ [e]) = step o (run o st evs) e.
Proof. by rewrite run_app. Qed.

Lemma init_one_kill_at_most o : one_kill_at_most (init o).
Proof. left. split; reflexivity. Qed.

(** Every [child.kill] is guarded by the flag it raises. *)
Lemma step_one_kill_at_most o st e : one_kill_at_most st → one_kill_at_most (step o st e).
Proof.
  unfold one_kill_at_most.
  intros [[Hk Hs]|[Hk [sig Hs]]];
    destruct e; simpl; unfold on_message;
    repeat match goal with
           | |- context [match trigger o with _ => _ end] => destruct (trigger o)
           | |- context [if strict_eq ?m ?k && _ then _ else _] => destruct (strict_eq m k)
           | |- context [if killTimerPending st then _ else _] =>
               destruct (killTimerPending st)
           | |- context [if safetyPending st then _ else _] => destruct (safetyPending st)
           | _ => progress (simpl; rewrite ?Hk, ?Hs)
           end;
    eauto.
Qed.

Lemma run_one_kill_at_most o st evs : one_kill_at_most st → one_kill_at_most (run o st evs).
Proof.
  revert st. induction evs as [|e evs IH]; intros st H; [exact H|].
  apply IH, step_one_kill_at_most, H.
Qed.

Lemma crashTest_one_kill_at_most o evs : one_kill_at_most (crashTest o evs).
Proof. apply run_one_kill_at_most, init_one_kill_at_most. Qed.

(** Once the flag is up, no handler sends anything. *)
Lemma step_after_kill o st e :
  killed st = true → killed (step o st e) = true ∧ sent (step o st e) = sent st.
Proof.
  intros Hk. destruct e; simpl; try by split.
  - unfold on_message. destruct (trigger o) as [k|]; simpl; [|by split].
    rewrite Hk, andb_false_r. by split.
  - destruct (killTimerPending st); simpl; rewrite ?Hk; by split.
  - destruct (safetyPending st); simpl; rewrite ?Hk; by split.
Qed.

Lemma run_after_kill o st evs :
  killed st = true → killed (run o st evs) = true ∧ sent (run o st evs) = sent st.
Proof.
  revert st. induction evs as [|e evs IH]; intros st Hk; [by split|].
  destruct (step_after_kill o st e Hk) as [Hk' Hs'].
  destruct (IH _ Hk') as [Hk'' Hs'']. simpl. split; [exact Hk''|]. by rewrite Hs'', Hs'.
Qed.

(** With a message trigger no delay timer is set, and before the trigger
    nothing raises the flag and the safety timer stays scheduled. *)
Lemma run_before_trigger o k st pre :
  trigger o = Some k →
  Forall (before_trigger k) pre →
  killed st = false → sent st = [] → killTimerPending st = false →
  safetyPending st = true →
  killed (run o st pre) = false ∧ sent (run o st pre) = [] ∧
  killTimerPending (run o st pre) = false ∧ safetyPending (run o st pre) = true.
Proof.
  intros Ht Hpre. revert st.
  induction Hpre as [|e pre He Hpre IH]; intros st Hk Hs Hp Hsafe.
  - by repeat split.
  - simpl. apply IH; destruct e; simpl in *; try assumption; try reflexivity;
      try contradiction.
    all: try (unfold on_message; rewrite Ht, He; simpl; assumption).
    all: try (by destruct (killTimer st)).
    all: try (by rewrite Hp).
Qed.

(** C5, as the code has it. With a message trigger, as long as neither the
    trigger message nor the safety timer has come, nothing is sent. If the
    first message equal to the trigger comes first, it sends the configured
    signal, and whatever comes after it, a second trigger message and the
    timers included, that signal remains the only one sent. If the safety
    timer expires first, its expiry sends SIGKILL, and whatever comes after
    it, the trigger message included, SIGKILL remains the only one sent. No
    run sends more than one signal. *)
Theorem kill_once_at_first_trigger_or_safety_expiry o k pre msg post :
  trigger o = Some k →
  Forall (before_trigger k) pre →
  strict_eq msg k = true →
  sent (crashTest o pre) = [] ∧
  sent (crashTest o (pre ++ [OnMessage msg])) = [signal o] ∧
  sent (crashTest o (pre ++ OnMessage msg :: post)) = [signal o] ∧
  sent (crashTest o (pre ++ [SafetyTimerFires])) = ["SIGKILL"%string] ∧
  sent (crashTest o (pre ++ SafetyTimerFires :: post)) = ["SIGKILL"%string] ∧
  sent (crashTest o (pre ++ SafetyTimerFires :: post ++ [OnMessage msg])) =
    ["SIGKILL"%string] ∧
  (∀ evs, length (sent (crashTest o evs)) ≤ 1).
Proof.
  intros Ht Hpre Hmsg.
  assert (Hinit : killTimerPending (init o) = false).
  { unfold init. by rewrite Ht. }
  destruct (run_before_trigger o k (init o) pre Ht Hpre eq_refl eq_refl Hinit eq_refl)
    as (Hk & Hs & _ & Hsafe).
  assert (Hstep : killed (step o (crashTest o pre) (OnMessage msg)) = true ∧
                  sent (step o (crashTest o pre) (OnMessage msg)) = [signal o]).
  { unfold crashTest. simpl. unfold on_message. rewrite Ht, Hmsg. simpl.
    rewrite Hk. simpl. rewrite Hs. by split. }
  assert (Hsafety : killed (step o (crashTest o pre) SafetyTimerFires) = true ∧
                    sent (step o (crashTest o pre) SafetyTimerFires) =
                      ["SIGKILL"%string]).
  { unfold crashTest. simpl. rewrite Hsafe. simpl. rewrite Hk. simpl.
    rewrite Hs. by split. }
  destruct Hstep as [Hk1 Hs1]. destruct Hsafety as [Hk2 Hs2].
  assert (Hafter : ∀ evs, sent (crashTest o (pre ++ SafetyTimerFires :: evs)) =
                          ["SIGKILL"%string]).
  { intros evs. unfold crashTest in *.
    change (pre ++ SafetyTimerFires :: evs) with (pre ++ [SafetyTimerFires] ++ evs).
    rewrite app_assoc, run_app, run_snoc.
    destruct (run_after_kill o _ evs Hk2) as [_ ->]. exact Hs2. }
  split; [exact Hs|]. split; [|split; [|split; [|split; [|split]]]].
  - unfold crashTest in *. by rewrite run_snoc.
  - unfold crashTest in *.
    change (pre ++ OnMessage msg :: post) with (pre ++ [OnMessage msg] ++ post).
    rewrite app_assoc, run_app, run_snoc.
    destruct (run_after_kill o _ post Hk1) as [_ ->]. exact Hs1.
  - apply Hafter.
  - apply Hafter.
  - apply Hafter.
  - intros evs.
    destruct (crashTest_one_kill_at_most o evs) as [[_ ->]|[_ [sig ->]]]; simpl; lia.
Qed.

Lemma kill_once_at_first_trigger_or_safety_expiry_witness :
  sent (crashTest Fixtures.sigterm_on_inserting
          [OnMessage (MsgStr "ready"); KillTimerFires]) = [] ∧
  sent (crashTest Fixtures.sigterm_on_inserting
          ([OnMessage (MsgStr "ready"); KillTimerFires] ++
           [OnMessage (MsgStr "inserting")])) = ["SIGTERM"%string] ∧
  sent (crashTest Fixtures.sigterm_on_inserting
          ([OnMessage (MsgStr "ready"); KillTimerFires] ++
           OnMessage (MsgStr "inserting") ::
           [OnMessage (MsgStr "inserting"); KillTimerFires; SafetyTimerFires])) =
    ["SIGTERM"%string] ∧
  sent (crashTest Fixtures.sigterm_on_inserting
          ([OnMessage (MsgStr "ready"); KillTimerFires] ++ [SafetyTimerFires])) =
    ["SIGKILL"%string] ∧
  sent (crashTest Fixtures.sigterm_on_inserting
          ([OnMessage (MsgStr "ready"); KillTimerFires] ++
           SafetyTimerFires ::
           [OnMessage (MsgStr "inserting"); KillTimerFires; SafetyTimerFires])) =
    ["SIGKILL"%string] ∧
  sent (crashTest Fixtures.sigterm_on_inserting
          ([OnMessage (MsgStr "ready"); KillTimerFires] ++
           SafetyTimerFires ::
           [OnMessage (MsgStr "inserting"); KillTimerFires; SafetyTimerFires] ++
           [OnMessage (MsgStr "inserting")])) = ["SIGKILL"%string] ∧
  (∀ evs, length (sent (crashTest Fixtures.sigterm_on_inserting evs)) ≤ 1).
Proof.
  apply (kill_once_at_first_trigger_or_safety_expiry
           Fixtures.sigterm_on_inserting "inserting").
  - reflexivity.
  - repeat constructor.
  - reflexivity.
Defined.

(** C5, as the claim has it, fails: with the trigger [inserting] and the
    signal SIGTERM, a worker that has said [ready] and nothing else for
    thirty seconds is sent SIGKILL by the safety timer. A signal is sent
    though no message has satisfied the trigger, it is not the configured
    one, and the trigger message that comes later sends nothing. *)
Lemma safety_timer_kills_before_any_trigger_message :
  trigger Fixtures.sigterm_on_inserting = Some "inserting"%string ∧
  signal Fixtures.sigterm_on_inserting = "SIGTERM"%string ∧
  sent (crashTest Fixtures.sigterm_on_inserting [OnMessage (MsgStr "ready")]) = [] ∧
  sent (crashTest Fixtures.sigterm_on_inserting
          [OnMessage (MsgStr "ready"); SafetyTimerFires]) = ["SIGKILL"%string] ∧
  sent (crashTest Fixtures.sigterm_on_inserting
          [OnMessage (MsgStr "ready"); SafetyTimerFires;
           OnMessage (MsgStr "inserting")]) = ["SIGKILL"%string].
Proof. repeat split. Qed.

(** C10. When the worker's exit is handled, and the promise is still
    pending, the promise gets [workerKilled = true] exactly when a signal
    was sent by one of the three kill paths or the exit signal is the
    configured one; the exit code and signal are recorded as they came. A
    worker that exits by itself before anything was sent is reported as not
    killed. *)
Theorem workerKilled_iff_kill_sent_or_signal_matches o evs code sig :
  settled (crashTest o evs) = None →
  ∃ r, result (crashTest o (evs ++ [OnExit code sig])) = Some r ∧
       (workerKilled r = true ↔ sent (crashTest o evs) ≠ [] ∨ sig = Some (signal o)) ∧
       workerExitCode r = code ∧ workerSignal r = sig ∧
       (sent (crashTest o evs) = [] → sig = None →
        workerKilled r = false ∧ workerExitCode r = code).
Proof.
  intros Hpending. unfold crashTest in *. rewrite run_snoc.
  set (st := run o (init o) evs) in *.
  assert (Hflag : killed st = true ↔ sent st ≠ []).
  { destruct (run_one_kill_at_most o (init o) evs (init_one_kill_at_most o))
      as [[Hk Hs]|[Hk [s Hs]]]; fold st in Hk, Hs; rewrite Hk, Hs; split; try done. }
  assert (Hsig : (match sig with Some s => String.eqb s (signal o) | None => false end) = true
                 ↔ sig = Some (signal o)).
  { destruct sig as [s|]; [|split; discriminate].
    rewrite String.eqb_eq. split; [by intros -> | by intros [= ->]]. }
  unfold result. simpl. rewrite Hpending. simpl.
  eexists. split; [reflexivity|]. simpl.
  repeat split; try reflexivity.
  - intros [H|H]%orb_true_iff; [right; by apply Hsig | left; by apply Hflag].
  - intros [H|H]; apply orb_true_iff; [right; by apply Hflag | left; by apply Hsig].
  - apply orb_false_iff. split.
    + by subst sig.
    + apply not_true_is_false. rewrite Hflag. by intros Hne.
Qed.

Lemma workerKilled_iff_kill_sent_or_signal_matches_witness :
  ∃ r, result (crashTest Fixtures.kill_on_inserting
                 ([OnMessage (MsgStr "ready"); OnStderr "fatal"] ++
                  [OnExit (Some 1%Z) None])) = Some r ∧
       workerKilled r = false ∧ workerExitCode r = Some 1%Z.
Proof.
  destruct (workerKilled_iff_kill_sent_or_signal_matches Fixtures.kill_on_inserting
              [OnMessage (MsgStr "ready"); OnStderr "fatal"] (Some 1%Z) None eq_refl)
    as (r & Hr & _ & _ & _ & Hself).
  exists r. split; [exact Hr|]. apply Hself; reflexivity.
Defined.

(** The safety timer is set whatever the options are, and sends SIGKILL
    when nothing was sent before it. *)
Lemma safety_timer_always_set o : safetyPending (init o) = true.
Proof. reflexivity. Qed.

Lemma safety_timer_kills_when_nothing_sent o st :
  safetyPending st = true → killed st = false →
  sent (step o st SafetyTimerFires) = sent st ++ ["SIGKILL"%string].
Proof. intros Hp Hk. simpl. rewrite Hp. simpl. by rewrite Hk. Qed.

(** It looks at the [killed] flag, not at the worker. *)
Lemma safety_timer_silent_after_any_kill o st :
  killed st = true → sent (step o st SafetyTimerFires) = sent st.
Proof. intros Hk. by destruct (step_after_kill o st SafetyTimerFires Hk). Qed.

(** C4, at the failing input: SIGTERM is sent when the delay expires, the
    worker catches it and lives on; when the safety timer expires, armed as
    always, nothing more is sent, SIGKILL never goes out, and the promise
    stays pending. *)
Theorem safety_timer_sends_nothing_after_survived_sigterm :
  safetyPending (init Fixtures.sigterm_after_delay) = true ∧
  sent (crashTest Fixtures.sigterm_after_delay [KillTimerFires]) = ["SIGTERM"%string] ∧
  sent (crashTest Fixtures.sigterm_after_delay [KillTimerFires; SafetyTimerFires]) =
    ["SIGTERM"%string] ∧
  result (crashTest Fixtures.sigterm_after_delay [KillTimerFires; SafetyTimerFires]) = None.
Proof. repeat split. Qed.
End CrashTest.

(** ** Reopening under a timeout *)

Section TryOpenFacts.
Import JS Harness.
Context {Db : Type}.
Implicit Types (ctor : string + Db) (evs rest : list settle_event) (r : open_result Db).

Lemma timeoutMessage_is_timeout (timeoutMs : N) :
  is_timeout_message (timeoutMessage timeoutMs) = true.
Proof. unfold is_timeout_message, timeoutMessage. apply str_prefix_append. Qed.

(** C6. [tryOpen] answers with the first settlement of the race. When the
    timer settles first, the answer is [success = false], no handle, and the
    error that carries the timeout message; [success = true] comes with a
    handle and no error, and only when [waitReady] was fulfilled first. An
    open that fails by itself hands back the engine's own error, which
    differs from the timeout error whenever its message is not a timeout
    message. *)
Theorem tryOpen_timeout_is_a_distinct_failure (d : Db) (timeoutMs : N) rest :
  tryOpen (inr d) timeoutMs (TimeoutFires :: rest) =
    Some {| success := false; db := None; error := Some (timeoutMessage timeoutMs) |} ∧
  (∀ ctor evs r,
      tryOpen ctor timeoutMs evs = Some r →
      (success r = true ∧ (∃ d', ctor = inr d' ∧ db r = Some d') ∧ error r = None ∧
       ∃ rest', evs = WaitReadyFulfils :: rest') ∨
      (success r = false ∧ db r = None ∧ ∃ e, error r = Some e)) ∧
  (∀ e rest',
      tryOpen (inr d) timeoutMs (WaitReadyRejects e :: rest') =
        Some {| success := false; db := None; error := Some e |}) ∧
  (∀ e rest',
      is_timeout_message e = false →
      tryOpen (inr d) timeoutMs (WaitReadyRejects e :: rest') ≠
      tryOpen (inr d) timeoutMs (TimeoutFires :: rest)).
Proof.
  split; [reflexivity|]. split; [|split; [reflexivity|]].
  - intros ctor evs r H. unfold tryOpen in H.
    destruct ctor as [e|d'].
    + injection H as <-. right. simpl. eauto.
    + destruct evs as [|[|e|] evs]; simpl in H; [discriminate|..];
        injection H as <-; simpl.
      * left. eauto 10.
      * right. eauto.
      * right. eauto.
  - intros e rest' He Heq. simpl in Heq. injection Heq as ->.
    by rewrite timeoutMessage_is_timeout in He.
Qed.

End TryOpenFacts.

Lemma tryOpen_timeout_is_a_distinct_failure_witness :
  Harness.tryOpen (inr tt) 15000%N [Harness.WaitReadyRejects "Aborted()"] ≠
  Harness.tryOpen (inr tt) 15000%N [Harness.TimeoutFires; Harness.WaitReadyFulfils].
Proof.
  apply (proj2 (proj2 (proj2
           (tryOpen_timeout_is_a_distinct_failure tt 15000%N [Harness.WaitReadyFulfils])))).
  reflexivity.
Defined.

(** ** The integrity report *)

Section VerifyIntegrityFacts.
Import JS Harness.
Context {S : Type} (query : S → string → S * (string + list row)).
Implicit Types (s : S) (rows : list row) (iss : list string).

(** The first loop runs the count of every table, failed or not, and adds
    one issue for each that failed. *)
Lemma count_tables_spec s rows iss :
  count_tables query s rows iss =
  ((exec query s (count_stmt <$> rows)).1,
   iss ++ failures count_issue rows (exec query s (count_stmt <$> rows)).2).
Proof.
  revert s iss. induction rows as [|r rows IH]; intros s iss.
  - simpl. by rewrite app_nil_r.
  - rewrite fmap_cons. cbn [count_tables exec].
    change (count_stmt r) with (sql_count (tablename r)).
    destruct (query s (sql_count (tablename r))) as [s1 [e|rs]]; rewrite IH;
      destruct (exec query s1 (count_stmt <$> rows)) as [s2 res]; simpl;
      by rewrite <- ?app_assoc.
Qed.

(** So does the second, over the tables that own the indexes. *)
Lemma check_indexes_spec s rows iss :
  check_indexes query s rows iss =
  ((exec query s (count_stmt <$> rows)).1,
   iss ++ failures index_issue rows (exec query s (count_stmt <$> rows)).2).
Proof.
  revert s iss. induction rows as [|r rows IH]; intros s iss.
  - simpl. by rewrite app_nil_r.
  - rewrite fmap_cons. cbn [check_indexes exec].
    change (count_stmt r) with (sql_count (tablename r)).
    destruct (query s (sql_count (tablename r))) as [s1 [e|rs]]; rewrite IH;
      destruct (exec query s1 (count_stmt <$> rows)) as [s2 res]; simpl;
      by rewrite <- ?app_assoc.
Qed.

Lemma table_layer_spec s iss :
  table_layer query s iss =
  match query s sql_tables with
  | (s', inl e) => (s', iss ++ ["Table listing failed: " +:+ e])
  | (s', inr rows) =>
      ((exec query s' (count_stmt <$> rows)).1,
       iss ++ failures count_issue rows (exec query s' (count_stmt <$> rows)).2)
  end.
Proof.
  unfold table_layer. destruct (query s sql_tables) as [s' [e|rows]]; [reflexivity|].
  apply count_tables_spec.
Qed.

Lemma index_layer_spec s iss :
  index_layer query s iss =
  match query s sql_indexes with
  | (s', inl e) => (s', iss ++ ["Index listing failed: " +:+ e])
  | (s', inr rows) =>
      ((exec query s' (count_stmt <$> rows)).1,
       iss ++ failures index_issue rows (exec query s' (count_stmt <$> rows)).2)
  end.
Proof.
  unfold index_layer. destruct (query s sql_indexes) as [s' [e|rows]]; [reflexivity|].
  apply check_indexes_spec.
Qed.

(** The index layer starts from whatever the table layer found. *)
Lemma index_layer_appends s iss :
  index_layer query s iss = ((index_layer query s []).1, iss ++ (index_layer query s []).2).
Proof.
  rewrite !index_layer_spec.
  destruct (query s sql_indexes) as [s' [e|rows]]; reflexivity.
Qed.

(** C3, as the code has it. A failed baseline query ends the verification
    at once: one issue, [intact = false], and no further statement reaches
    the engine. After a successful baseline query the table layer and then
    the index layer run, the second from the state the first left and
    whatever it found; a failed listing is one issue, and otherwise every
    row's statement is run and each failed one is one issue. In every case
    [intact] is [true] exactly when there is no issue. *)
Theorem verifyIntegrity_layers_after_baseline s :
  (∀ s1 e, query s sql_health = (s1, inl e) →
           verifyIntegrity query s =
           (s1, {| intact := false; issues := ["Basic query failed: " +:+ e] |})) ∧
  (∀ s1 rows0, query s sql_health = (s1, inr rows0) →
     let t := table_layer query s1 [] in
     let i := index_layer query t.1 [] in
     (verifyIntegrity query s).1 = i.1 ∧
     issues (verifyIntegrity query s).2 = t.2 ++ i.2) ∧
  (∀ s1 iss,
     table_layer query s1 iss =
     match query s1 sql_tables with
     | (s', inl e) => (s', iss ++ ["Table listing failed: " +:+ e])
     | (s', inr rows) =>
         ((exec query s' (count_stmt <$> rows)).1,
          iss ++ failures count_issue rows (exec query s' (count_stmt <$> rows)).2)
     end) ∧
  (∀ s2 iss,
     index_layer query s2 iss =
     match query s2 sql_indexes with
     | (s', inl e) => (s', iss ++ ["Index listing failed: " +:+ e])
     | (s', inr rows) =>
         ((exec query s' (count_stmt <$> rows)).1,
          iss ++ failures index_issue rows (exec query s' (count_stmt <$> rows)).2)
     end) ∧
  (intact (verifyIntegrity query s).2 = true ↔ issues (verifyIntegrity query s).2 = []).
Proof.
  split; [|split; [|split; [|split]]].
  - intros s1 e H. unfold verifyIntegrity. by rewrite H.
  - intros s1 rows0 H. unfold verifyIntegrity. rewrite H.
    destruct (table_layer query s1 []) as [s2 iss2]. simpl.
    rewrite (index_layer_appends s2 iss2).
    by destruct (index_layer query s2 []) as [s3 iss3].
  - apply table_layer_spec.
  - apply index_layer_spec.
  - unfold verifyIntegrity.
    destruct (query s sql_health) as [s1 [e|rows0]]; simpl; [done|].
    destruct (table_layer query s1 []) as [s2 iss2].
    destruct (index_layer query s2 iss2) as [s3 iss3]. simpl.
    destruct iss3; simpl; split; done.
Qed.
End VerifyIntegrityFacts.

Lemma verifyIntegrity_layers_after_baseline_witness :
  Harness.verifyIntegrity Fixtures.dead_engine [] =
    ([Harness.sql_health],
     {| Harness.intact := false;
        Harness.issues := ["Basic query failed: could not open relation"%string] |}).
Proof.
  apply (proj1 (verifyIntegrity_layers_after_baseline Fixtures.dead_engine [])).
  reflexivity.
Defined.

(** C3, as the claim has it, fails: on an engine that fails the health
    check, [verifyIntegrity] issues that one statement and neither lists the
    tables nor the indexes. *)
Lemma verifyIntegrity_skips_layers_after_baseline_failure :
  (Harness.verifyIntegrity Fixtures.dead_engine []).1 = [Harness.sql_health] ∧
  ¬ (Harness.sql_tables ∈ (Harness.verifyIntegrity Fixtures.dead_engine []).1 ∧
     Harness.sql_indexes ∈ (Harness.verifyIntegrity Fixtures.dead_engine []).1).
Proof.
  split; [reflexivity|].
  intros [Ht _]. vm_compute in Ht. apply list_elem_of_In in Ht.
  destruct Ht as [Ht|[]]. discriminate Ht.
Qed.

(** Past the baseline, a failure does not stop the run: the count on
    [orders] fails, the count on [users] and the index layer still run. *)
Example verifyIntegrity_damaged_table :
  Harness.verifyIntegrity Fixtures.damaged_engine [] =
    ([Harness.sql_health; Harness.sql_tables;
      Harness.sql_count "orders"; Harness.sql_count "users";
      Harness.sql_indexes; Harness.sql_count "orders"],
     {| Harness.intact := false;
        Harness.issues :=
          ["Count on orders failed: invalid page in block 0"%string;
           "Index check on orders_pkey failed: invalid page in block 0"%string] |}).
Proof. vm_compute. reflexivity. Qed.

(** ** The classifier *)

Section ClassifierFacts.
Import Harness Classifier.
Context {Db : Type}.
Implicit Types (v : verification Db) (r : list (verification Db)) (l : label).

Lemma elem_of_labels_of l v : l ∈ labels_of v ↔ applies l v = true.
Proof.
  unfold labels_of. rewrite elem_of_list_to_set, list_elem_of_filter.
  split; [by intros [H _]|].
  intros H. split; [exact H|].
  destruct l; simpl in H; try discriminate; unfold failure_labels; set_solver.
Qed.

Lemma elem_of_found l r :
  l ∈ ⋃ (labels_of <$> r) ↔ ∃ v, v ∈ r ∧ applies l v = true.
Proof.
  rewrite elem_of_union_list. split.
  - intros (X & HX & Hl). apply list_elem_of_fmap in HX as (v & -> & Hv).
    exists v. split; [exact Hv|]. by apply elem_of_labels_of.
  - intros (v & Hv & Hl). exists (labels_of v). split.
    + apply list_elem_of_fmap. by exists v.
    + by apply elem_of_labels_of.
Qed.

(** C8. The classifier is a function of the scenario result alone. A
    failure label is in its answer exactly when its condition holds of one
    of the verifications: OPEN_FAILURE when [tryOpen] did not succeed
    (failure and timeout alike), INTEGRITY_FAILURE when it succeeded and
    the report is not intact, DATA_INCONSISTENCY when the report is intact
    and a cross-check failed, WRITE_FAILURE when nothing but the write probe
    failed. NONE is the answer exactly when no failure label applies, and it
    then stands alone; the answer is never empty and holds every label that
    applies. *)
Theorem classify_returns_all_applicable_labels r :
  (∀ l, l ≠ NONE → l ∈ classify r ↔ (∃ v, v ∈ r ∧ applies l v = true)) ∧
  (NONE ∈ classify r ↔ ∀ v l, v ∈ r → applies l v = false) ∧
  (NONE ∈ classify r → classify r = {[ NONE ]}) ∧
  classify r ≠ ∅ ∧
  (∀ v,
      (applies OPEN_FAILURE v = true ↔ success (opened v) = false) ∧
      (applies INTEGRITY_FAILURE v = true ↔
         success (opened v) = true ∧
         ∃ rep, integrity v = Some rep ∧ intact rep = false) ∧
      (applies DATA_INCONSISTENCY v = true ↔
         success (opened v) = true ∧
         (∃ rep, integrity v = Some rep ∧ intact rep = true) ∧
         false ∈ crossChecks v) ∧
      (applies WRITE_FAILURE v = true ↔
         success (opened v) = true ∧ integrity_failed v = false ∧
         (false ∉ crossChecks v) ∧ writeProbe v = Some false)).
Proof.
  assert (Hnone : NONE ∉ ⋃ (labels_of <$> r)).
  { rewrite elem_of_found. intros (v & _ & H). discriminate. }
  split; [|split; [|split; [|split]]].
  - intros l Hl. unfold classify. case_decide as He.
    + rewrite elem_of_singleton. split; [done|].
      intros Hex. apply elem_of_found in Hex. rewrite He in Hex. set_solver.
    + apply elem_of_found.
  - unfold classify. case_decide as He.
    + split; [|set_solver]. intros _ v l Hv.
      destruct (applies l v) eqn:Ha; [|reflexivity].
      assert (l ∈ ⋃ (labels_of <$> r)) by (apply elem_of_found; eauto).
      rewrite He in H. set_solver.
    + split; [by intros ?%Hnone|]. intros Hall. exfalso. apply He.
      apply set_eq. intros l. split; [|set_solver].
      intros (v & Hv & Ha)%elem_of_found. by rewrite (Hall v l Hv) in Ha.
  - unfold classify. case_decide as He; [done | by intros ?%Hnone].
  - unfold classify. case_decide as He; [set_solver | done].
  - intros v. clear Hnone.
    assert (Hcc : cross_check_failed v = true ↔ false ∈ crossChecks v).
    { unfold cross_check_failed. rewrite existsb_exists. split.
      - intros ([] & Hin & Hb); [discriminate|]. by apply list_elem_of_In.
      - intros Hin. exists false. split; [by apply list_elem_of_In | reflexivity]. }
    unfold applies, integrity_failed, integrity_passed, write_probe_failed.
    rewrite <- Hcc. clear Hcc.
    destruct (success (opened v)), (integrity v) as [[[] ?]|],
      (cross_check_failed v), (writeProbe v) as [[]|]; simpl;
      intuition (try discriminate; eauto);
      repeat match goal with
             | H : ∃ _, _ |- _ => destruct H as [? [? ?]]
             end; simplify_eq.
Qed.
End ClassifierFacts.

Lemma classify_returns_all_applicable_labels_witness :
  Classifier.OPEN_FAILURE ∈ Classifier.classify [Fixtures.timed_out; Fixtures.damaged] ∧
  Classifier.INTEGRITY_FAILURE ∈ Classifier.classify [Fixtures.timed_out; Fixtures.damaged] ∧
  Classifier.classify [Fixtures.recovered] = {[ Classifier.NONE ]}.
Proof.
  split; [|split].
  - apply (proj1 (classify_returns_all_applicable_labels
                    [Fixtures.timed_out; Fixtures.damaged]) Classifier.OPEN_FAILURE);
      [discriminate|].
    exists Fixtures.timed_out. split; [|reflexivity].
    apply list_elem_of_In. simpl. auto.
  - apply (proj1 (classify_returns_all_applicable_labels
                    [Fixtures.timed_out; Fixtures.damaged]) Classifier.INTEGRITY_FAILURE);
      [discriminate|].
    exists Fixtures.damaged. split; [|reflexivity].
    apply list_elem_of_In. simpl. auto.
  - apply (proj1 (proj2 (proj2 (classify_returns_all_applicable_labels [Fixtures.recovered])))).
    apply (proj1 (proj2 (classify_returns_all_applicable_labels [Fixtures.recovered]))).
    intros v l Hv. apply list_elem_of_In in Hv. destruct Hv as [<-|[]].
    destruct l; reflexivity.
Defined.

(** ** Boundaries of the lock file *)

(** A record that names pid 0 fails the test [pid && ...] and is taken over,
    although signal 0 to pid 0 raises nothing on this host. *)
Example zero_pid_record_is_stale :
  NodeFS.isProcessAlive Fixtures.host 0 = true ∧
  NodeFS.ownerPid (Fixtures.lock_text "0") = None ∧
  snd (NodeFS.acquireLock Fixtures.host "/tmp/db"
         (Fixtures.world (NodeFS.Dir []) (Some (Fixtures.lock_of "0")))) = None.
Proof. vm_compute. repeat split. Qed.

(** A process that opens the directory it already holds is refused by its
    own record. *)
Example own_record_is_a_live_holder :
  snd (NodeFS.acquireLock Fixtures.host "/tmp/db"
         (fst (NodeFS.acquireLock Fixtures.host "/tmp/db"
                 (Fixtures.world (NodeFS.Dir []) None)))) =
  Some (NodeFS.LockedErr "/tmp/db" 42 "/tmp/db.lock").
Proof. vm_compute. reflexivity. Qed.

(** The white space that [trim] and [parseInt] skip is that of ECMAScript:
    a record that starts with a no-break space or a byte order mark, or has
    a line separator after the time stamp, names its pid all the same. *)
Example record_after_unicode_space :
  NodeFS.ownerPid (JS.nbsp +:+ Fixtures.lock_text "7") = Some 7%Z ∧
  NodeFS.ownerPid (JS.bom +:+ Fixtures.lock_text "7") = Some 7%Z ∧
  JS.trim (JS.nbsp +:+ JS.bom +:+ " 7" +:+ JS.nl +:+ JS.nbsp) = "7"%string ∧
  JS.trim (String (ascii_of_nat 226) (String (ascii_of_nat 128)
             (String (ascii_of_nat 168) "7 8"))) = "7 8"%string ∧
  JS.trim (String (ascii_of_nat 226) (String (ascii_of_nat 130)
             (String (ascii_of_nat 172) "7"))) =
    String (ascii_of_nat 226) (String (ascii_of_nat 130)
      (String (ascii_of_nat 172) "7")).
Proof. vm_compute. repeat split. Qed.

(** A directory at the marker path is not a record: the guard lets it pass
    and the open fails with the error of the file system. *)
Example directory_at_lock_path :
  snd (NodeFS.acquireLock Fixtures.host "/tmp/db"
         (Fixtures.world (NodeFS.Dir []) (Some (NodeFS.Dir [])))) =
  Some (NodeFS.FsErr "EISDIR"
          "EISDIR: illegal operation on a directory, open '/tmp/db.lock'").
Proof. vm_compute. reflexivity. Qed.

(** * Further properties of the same code *)

(** ** Printing and reading back a pid *)

Section DecimalRoundTrip.
Import JS.

Lemma digits_cons (c : ascii) (s : string) (acc : option Z) :
  digits (String c s) acc =
  match digit_val c with
  | Some d => digits s (Some (10 * default 0%Z acc + d)%Z)
  | None => acc
  end.
Proof. reflexivity. Qed.

Lemma digits_string_of_uint (d : Decimal.uint) (acc : option Z) :
  digits (NilEmpty.string_of_uint d) acc =
  match d with
  | Decimal.Nil => acc
  | _ => Some (uval d (default 0%Z acc))
  end.
Proof.
  revert acc. induction d as [|d IH|d IH|d IH|d IH|d IH|d IH|d IH|d IH|d IH|d IH];
    intros acc; [reflexivity|..];
    cbn [NilEmpty.string_of_uint]; rewrite digits_cons;
    match goal with
    | |- context [digit_val ?c] =>
        let v := eval vm_compute in (digit_val c) in change (digit_val c) with v
    end;
    cbv beta iota; rewrite IH; destruct d; reflexivity.
Qed.

Lemma of_uint_acc_uval (d : Decimal.uint) (acc : positive) :
  Z.pos (Pos.of_uint_acc d acc) = uval d (Z.pos acc).
Proof.
  revert acc. induction d as [|d IH|d IH|d IH|d IH|d IH|d IH|d IH|d IH|d IH|d IH];
    intros acc; [reflexivity|..];
    cbn [Pos.of_uint_acc uval]; rewrite IH; f_equal; lia.
Qed.

Lemma of_uint_uval (d : Decimal.uint) : Z.of_N (Pos.of_uint d) = uval d 0.
Proof.
  induction d as [|d IH|d IH|d IH|d IH|d IH|d IH|d IH|d IH|d IH|d IH];
    [reflexivity | exact IH | ..];
    cbn [Pos.of_uint uval Z.of_N]; apply of_uint_acc_uval.
Qed.

Lemma parseInt_string_of_uint (d : Decimal.uint) :
  d ≠ Decimal.Nil → parseInt (NilEmpty.string_of_uint d) = Some (uval d 0).
Proof.
  intros Hd. pose proof (digits_string_of_uint d None) as H.
  destruct d; [done|..]; exact H.
Qed.

Lemma parseInt_minus (s : string) :
  parseInt (String "-"%char s) = Z.opp <$> digits s None.
Proof. reflexivity. Qed.

(** [parseInt] reads back every integer that [toString] prints. *)
Lemma parseInt_toString (z : Z) : parseInt (toString z) = Some z.
Proof.
  pose proof (DecimalZ.of_to z) as Hz. unfold toString.
  destruct z as [|p|p]; [reflexivity| |].
  - simpl in *. unfold Z.of_uint in Hz. rewrite of_uint_uval in Hz.
    destruct (Pos.to_uint p) eqn:E; [discriminate Hz|..];
      unfold NilZero.string_of_uint; rewrite parseInt_string_of_uint by discriminate;
      by rewrite Hz.
  - simpl in *. unfold Z.of_uint in Hz. rewrite of_uint_uval in Hz.
    rewrite parseInt_minus.
    destruct (Pos.to_uint p) eqn:E; [discriminate Hz|..];
      unfold NilZero.string_of_uint; rewrite digits_string_of_uint;
      exact (f_equal Some Hz).
Qed.

Lemma all_chars_string_of_uint (d : Decimal.uint) :
  all_chars decimal_char (NilEmpty.string_of_uint d) = true.
Proof. induction d; simpl; [reflexivity | exact IHd ..]. Qed.

(** A printed integer is not empty and is made of digits and a sign. *)
Lemma toString_decimal (z : Z) :
  toString z ≠ EmptyString ∧ all_chars decimal_char (toString z) = true.
Proof.
  unfold toString. destruct z as [|p|p]; simpl; [by split| |].
  - pose proof (all_chars_string_of_uint (Pos.to_uint p)) as H.
    unfold NilZero.string_of_uint.
    destruct (Pos.to_uint p); (split; [discriminate | first [exact H | reflexivity]]).
  - pose proof (all_chars_string_of_uint (Pos.to_uint p)) as H.
    split; [discriminate|]. unfold NilZero.string_of_uint.
    destruct (Pos.to_uint p); first [exact H | reflexivity].
Qed.

Lemma all_chars_impl (P Q : ascii → bool) (s : string) :
  (∀ c, P c = true → Q c = true) → all_chars P s = true → all_chars Q s = true.
Proof.
  intros HPQ. induction s as [|c s IH]; simpl; [done|].
  intros [Hc Hs]%andb_true_iff. by rewrite (HPQ c Hc), (IH Hs).
Qed.

Lemma decimal_char_not_ws (c : ascii) : decimal_char c = true → is_ws c = false.
Proof.
  destruct c as [[|] [|] [|] [|] [|] [|] [|] [|]]; vm_compute; congruence.
Qed.

Lemma decimal_char_not (x : ascii) (c : ascii) :
  decimal_char x = false → decimal_char c = true → negb (Ascii.eqb c x) = true.
Proof.
  intros Hx Hc. destruct (Ascii.eqb_spec c x) as [->|]; [congruence | reflexivity].
Qed.

Lemma all_chars_no_sep (x : ascii) (s : string) :
  decimal_char x = false → all_chars decimal_char s = true → no_sep x s = true.
Proof.
  intros Hx. induction s as [|c s IH]; simpl; [done|].
  intros [Hc Hs]%andb_true_iff. by rewrite (decimal_char_not x c Hx Hc), (IH Hs).
Qed.

Lemma decimal_char_not_lead (c : ascii) : decimal_char c = true → is_ws_lead c = false.
Proof.
  destruct c as [[|] [|] [|] [|] [|] [|] [|] [|]]; vm_compute; congruence.
Qed.

(** Every white-space code point of more than one byte starts with a byte
    that [trimStart] looks behind. *)
Lemma ws_lead_complete (a b c : ascii) :
  is_ws2 a b || is_ws3 a b c = true → is_ws_lead a = true.
Proof.
  unfold is_ws2, is_ws3, is_ws_lead. cbv zeta.
  destruct (nat_of_ascii a =? 194), (nat_of_ascii a =? 225), (nat_of_ascii a =? 226),
    (nat_of_ascii a =? 227), (nat_of_ascii a =? 239); simpl; congruence.
Qed.

Lemma trimStart_keep (c : ascii) (s : string) :
  decimal_char c = true → trimStart (String c s) = String c s.
Proof.
  intros Hc. cbn [trimStart].
  by rewrite (decimal_char_not_ws c Hc), (decimal_char_not_lead c Hc).
Qed.

Lemma trimStart_decimal (s rest : string) :
  s ≠ EmptyString → all_chars decimal_char s = true →
  trimStart (s +:+ rest) = s +:+ rest.
Proof.
  destruct s as [|c s]; [done|]. intros _ [Hc _]%andb_true_iff.
  rewrite str_app_cons. by apply trimStart_keep.
Qed.

Lemma trimEnd_cons (c : ascii) (s : string) :
  trimEnd (String c s) =
  if all_ws (String c s) then EmptyString else String c (trimEnd s).
Proof. reflexivity. Qed.

Lemma trimEnd_decimal_app (a rest : string) :
  all_chars decimal_char a = true → trimEnd (a +:+ rest) = a +:+ trimEnd rest.
Proof.
  induction a as [|c a IH]; [by rewrite !str_app_nil_l|].
  intros [Hc Ha]%andb_true_iff. rewrite !str_app_cons, trimEnd_cons.
  unfold all_ws. rewrite (trimStart_keep c _ Hc). by rewrite (IH Ha).
Qed.

Lemma trimEnd_nl_decimal (s rest : string) :
  s ≠ EmptyString → all_chars decimal_char s = true →
  trimEnd (String nl_char (s +:+ rest)) = String nl_char (s +:+ trimEnd rest).
Proof.
  intros Hs Hd. rewrite trimEnd_cons.
  assert (Hw : all_ws (String nl_char (s +:+ rest)) = false).
  { unfold all_ws. change (trimStart (String nl_char (s +:+ rest)))
      with (trimStart (s +:+ rest)).
    rewrite (trimStart_decimal _ _ Hs Hd).
    destruct s; [done|]. by rewrite str_app_cons. }
  by rewrite Hw, (trimEnd_decimal_app _ _ Hd).
Qed.

Lemma split_first (c : ascii) (a b : string) :
  no_sep c a = true → split c (a +:+ String c b) = a :: split c b.
Proof.
  induction a as [|x a IH]; intros Ha.
  - rewrite str_app_nil_l. cbn [split]. by rewrite Ascii.eqb_refl.
  - simpl in Ha. apply andb_true_iff in Ha as [Hx Ha]. apply negb_true_iff in Hx.
    rewrite str_app_cons. cbn [split]. by rewrite Hx, (IH Ha).
Qed.
End DecimalRoundTrip.

(** ** The life of a lock *)

Section LockLife.
Import JS NodeFS.
Implicit Types (o : os) (rootDir raw : string) (st : state) (pid : Z).

Lemma nl_cons (s : string) : nl +:+ s = String nl_char s.
Proof. reflexivity. Qed.

Lemma trim_lockRecord o :
  trim (lockRecord o) =
  toString (self_pid o) +:+ String nl_char (toString (date_now o)).
Proof.
  destruct (toString_decimal (self_pid o)) as [Hp1 Hp2].
  destruct (toString_decimal (date_now o)) as [Ht1 Ht2].
  unfold trim, lockRecord. rewrite (trimStart_decimal _ _ Hp1 Hp2).
  rewrite (trimEnd_decimal_app _ _ Hp2), nl_cons.
  rewrite (trimEnd_nl_decimal _ _ Ht1 Ht2).
  change (trimEnd nl) with EmptyString.
  f_equal. f_equal. clear. induction (toString (date_now o)) as [|c s IH];
    [reflexivity | by rewrite str_app_cons, IH].
Qed.

Lemma parse_lockRecord o :
  parseInt_at0 (split nl_char (trim (lockRecord o))) = Some (self_pid o).
Proof.
  rewrite trim_lockRecord.
  destruct (toString_decimal (self_pid o)) as [_ Hp2].
  rewrite split_first by (by apply all_chars_no_sep).
  cbn [parseInt_at0]. apply parseInt_toString.
Qed.

Lemma ownerPid_lockRecord o :
  ownerPid (lockRecord o) = if (self_pid o =? 0)%Z then None else Some (self_pid o).
Proof. unfold ownerPid. rewrite parse_lockRecord. simpl. by destruct (self_pid o =? 0)%Z. Qed.

(** X1. The record [#acquireLock] writes is read back by [#acquireLock] as
    the writer's pid, for every pid but 0 and every timestamp: the first line
    of the trimmed record parses to the pid, and the pid passes the test
    [pid && !isNaN(pid)]. *)
Theorem lockRecord_read_back o :
  self_pid o ≠ 0%Z →
  parseInt_at0 (split nl_char (trim (lockRecord o))) = Some (self_pid o) ∧
  ownerPid (lockRecord o) = Some (self_pid o).
Proof.
  intros Hpid. split; [apply parse_lockRecord|].
  rewrite ownerPid_lockRecord. by destruct (Z.eqb_spec (self_pid o) 0).
Qed.

Lemma lockRecord_read_back_witness :
  ownerPid (lockRecord Fixtures.host) = Some 42%Z.
Proof.
  destruct (lockRecord_read_back Fixtures.host) as [_ H]; [discriminate | exact H].
Defined.

(** What a normal return of [#acquireLock] leaves behind. *)
Lemma acquireLock_success o rootDir st st' :
  acquireLock o rootDir st = (st', None) →
  st' = {| fs := <[lockPathOf rootDir := File (lockRecord o)]> (fs st);
           fds := snd (alloc_fd (fds st) (lockPathOf rootDir));
           lockFd := Some (fst (alloc_fd (fds st) (lockPathOf rootDir)));
           warnings := warnings st |}.
Proof.
  intros Hacq.
  assert (Hc : acquireLock_check o rootDir st = None).
  { unfold acquireLock in Hacq.
    destruct (acquireLock_check o rootDir st); [discriminate | reflexivity]. }
  assert (Hd : ∀ es, fs st !! lockPathOf rootDir ≠ Some (Dir es)).
  { intros es Hes. unfold acquireLock in Hacq. rewrite Hc in Hacq.
    unfold openSync_w in Hacq. rewrite Hes in Hacq. discriminate. }
  rewrite (acquireLock_writes o rootDir st Hc Hd) in Hacq. by injection Hacq.
Qed.

(** The lock error leaves the state as it was; any other exception comes
    from the file system, after the guard. *)
Lemma acquireLock_throw_cases o rootDir st e :
  snd (acquireLock o rootDir st) = Some e →
  (acquireLock_check o rootDir st = Some e ∧ fst (acquireLock o rootDir st) = st) ∨
  (acquireLock_check o rootDir st = None ∧ ∃ c m, e = FsErr c m).
Proof.
  unfold acquireLock.
  destruct (acquireLock_check o rootDir st) as [e0|] eqn:Hc; simpl.
  - intros [= ->]. by left.
  - intros He. right. split; [reflexivity|].
    destruct (openSync_w st (lockPathOf rootDir)) as [e1|[fd st1]] eqn:Ho.
    + simpl in He. injection He as <-. unfold openSync_w in Ho.
      destruct (fs st !! lockPathOf rootDir) as [[?|?]|];
        try (destruct (alloc_fd _ _); discriminate).
      injection Ho as <-. eauto.
    + destruct (writeSync _ fd (lockRecord o)) as [e2|st3] eqn:Hw; [|discriminate].
      simpl in He. injection He as <-. unfold writeSync in Hw.
      repeat case_match; simplify_eq; eauto.
Qed.

(** X2. Mutual exclusion on one host: once a process has the lock, every
    process that sees its pid alive, the holder itself included, is refused
    with the lock error that names the holder, and changes nothing. *)
Theorem acquireLock_excludes_second_holder o1 o2 rootDir st st1 st2 :
  acquireLock o1 rootDir st = (st1, None) →
  self_pid o1 ≠ 0%Z →
  fs st2 = fs st1 →
  isProcessAlive o2 (self_pid o1) = true →
  acquireLock o2 rootDir st2 =
    (st2, Some (LockedErr rootDir (self_pid o1) (lockPathOf rootDir))).
Proof.
  intros Hacq Hpid Hfs Halive.
  apply acquireLock_success in Hacq. subst st1. simpl in Hfs.
  unfold acquireLock. rewrite acquireLock_check_spec, Hfs, lookup_insert_eq.
  rewrite ownerPid_lockRecord. destruct (Z.eqb_spec (self_pid o1) 0); [done|].
  by rewrite Halive.
Qed.

Lemma acquireLock_excludes_second_holder_witness :
  acquireLock Fixtures.host "/tmp/db"
    (fst (acquireLock Fixtures.host "/tmp/db" (Fixtures.world (Dir []) None))) =
  (fst (acquireLock Fixtures.host "/tmp/db" (Fixtures.world (Dir []) None)),
   Some (LockedErr "/tmp/db" 42 "/tmp/db.lock")).
Proof.
  apply (acquireLock_excludes_second_holder Fixtures.host Fixtures.host "/tmp/db"
           (Fixtures.world (Dir []) None)
           (fst (acquireLock Fixtures.host "/tmp/db" (Fixtures.world (Dir []) None))));
    [vm_compute; reflexivity | discriminate | reflexivity | reflexivity].
Defined.

(** X3. A lock left by a process that died is no obstacle: whoever finds the
    owner dead takes the lock over, and the record then names the new
    owner. *)
Theorem acquireLock_reclaims_after_crash o1 o2 rootDir st st1 st2 :
  acquireLock o1 rootDir st = (st1, None) →
  fs st2 = fs st1 →
  isProcessAlive o2 (self_pid o1) = false →
  snd (acquireLock o2 rootDir st2) = None ∧
  fs (fst (acquireLock o2 rootDir st2)) !! lockPathOf rootDir =
    Some (File (lockRecord o2)) ∧
  (self_pid o2 ≠ 0%Z →
   ∃ raw, fs (fst (acquireLock o2 rootDir st2)) !! lockPathOf rootDir = Some (File raw) ∧
          ownerPid raw = Some (self_pid o2)).
Proof.
  intros Hacq Hfs Hdead.
  apply acquireLock_success in Hacq. subst st1. simpl in Hfs.
  assert (Hrec : fs st2 !! lockPathOf rootDir = Some (File (lockRecord o1))).
  { by rewrite Hfs, lookup_insert_eq. }
  destruct (acquireLock_takes_over o2 rootDir st2 _ Hrec) as [Hok Hnew].
  { intros p. rewrite ownerPid_lockRecord.
    destruct (self_pid o1 =? 0)%Z; [discriminate|]. by intros [= <-]. }
  split; [exact Hok|]. split; [exact Hnew|].
  intros Hpid. eexists. split; [exact Hnew|].
  rewrite ownerPid_lockRecord. by destruct (Z.eqb_spec (self_pid o2) 0).
Qed.

Lemma acquireLock_reclaims_after_crash_witness :
  snd (acquireLock Fixtures.host "/tmp/db"
         (fst (acquireLock Fixtures.host_after_crash "/tmp/db"
                 (Fixtures.world (Dir []) None)))) = None.
Proof.
  apply (acquireLock_reclaims_after_crash Fixtures.host_after_crash Fixtures.host "/tmp/db"
           (Fixtures.world (Dir []) None)
           (fst (acquireLock Fixtures.host_after_crash "/tmp/db"
                   (Fixtures.world (Dir []) None))));
    [vm_compute; reflexivity | reflexivity | reflexivity].
Defined.

(** How [#releaseLock] ends when it has a descriptor. *)
Lemma releaseLock_with_fd rootDir st fd :
  lockFd st = Some fd →
  releaseLock rootDir st =
  {| fs := match fs st !! lockPathOf rootDir with
           | Some (File _) => delete (lockPathOf rootDir) (fs st)
           | _ => fs st
           end;
     fds := match fds st !! fd with
            | Some (Some _) => <[fd := None]> (fds st)
            | _ => fds st
            end;
     lockFd := None; warnings := warnings st |}.
Proof.
  intros Hfd. unfold releaseLock, closeSync, unlinkSync. rewrite Hfd.
  destruct (fds st !! fd) as [[q|]|]; simpl;
    destruct (fs st !! lockPathOf rootDir) as [[c|es]|]; reflexivity.
Qed.

Lemma releaseLock_undoes_acquireLock_aux o rootDir st st1 :
  acquireLock o rootDir st = (st1, None) →
  fs (releaseLock rootDir st1) = delete (lockPathOf rootDir) (fs st).
Proof.
  intros Hacq. apply acquireLock_success in Hacq.
  rewrite (releaseLock_with_fd rootDir st1 (fst (alloc_fd (fds st) (lockPathOf rootDir))))
    by (by subst st1).
  subst st1. simpl. by rewrite lookup_insert_eq, delete_insert_eq.
Qed.

(** X4. After a successful [#acquireLock], [#releaseLock] removes the marker
    file, closes the descriptor and forgets it, and touches nothing else; if
    there was no marker before the acquire, the file system is back to what
    it was. *)
Theorem releaseLock_undoes_acquireLock o rootDir st st1 :
  acquireLock o rootDir st = (st1, None) →
  fs (releaseLock rootDir st1) = delete (lockPathOf rootDir) (fs st) ∧
  lockFd (releaseLock rootDir st1) = None ∧
  (∃ fd, lockFd st1 = Some fd ∧ fds (releaseLock rootDir st1) !! fd = Some None) ∧
  warnings (releaseLock rootDir st1) = warnings st ∧
  (fs st !! lockPathOf rootDir = None → fs (releaseLock rootDir st1) = fs st).
Proof.
  intros Hacq. apply acquireLock_success in Hacq.
  pose proof (alloc_fd_lookup (fds st) (lockPathOf rootDir)) as Hfd.
  rewrite (releaseLock_with_fd rootDir st1 (fst (alloc_fd (fds st) (lockPathOf rootDir))))
    by (by subst st1).
  subst st1. simpl. rewrite lookup_insert_eq, Hfd, delete_insert_eq.
  repeat split.
  - eexists. split; [reflexivity|].
    apply list_lookup_insert_eq. by apply lookup_lt_Some in Hfd.
  - intros Hnone. by apply delete_id.
Qed.

Lemma releaseLock_undoes_acquireLock_witness :
  fs (releaseLock "/tmp/db"
        (fst (acquireLock Fixtures.host "/tmp/db" (Fixtures.world (Dir []) None)))) =
  fs (Fixtures.world (Dir []) None).
Proof.
  pose proof (releaseLock_undoes_acquireLock Fixtures.host "/tmp/db"
                (Fixtures.world (Dir []) None)
                (fst (acquireLock Fixtures.host "/tmp/db" (Fixtures.world (Dir []) None))))
    as H.
  destruct H as (_ & _ & _ & _ & Hback); [vm_compute; reflexivity|].
  apply Hback. vm_compute. reflexivity.
Defined.

(** X5. [#releaseLock] never throws and always ends without a descriptor, so
    a second call does nothing; without a descriptor it does nothing at all,
    and in particular leaves a marker that somebody else wrote. With a
    descriptor it removes the marker file whatever record it holds. *)
Theorem releaseLock_idempotent rootDir st :
  lockFd (releaseLock rootDir st) = None ∧
  releaseLock rootDir (releaseLock rootDir st) = releaseLock rootDir st ∧
  (lockFd st = None → releaseLock rootDir st = st) ∧
  (∀ fd raw, lockFd st = Some fd → fs st !! lockPathOf rootDir = Some (File raw) →
             fs (releaseLock rootDir st) !! lockPathOf rootDir = None).
Proof.
  assert (Hnone : lockFd (releaseLock rootDir st) = None).
  { destruct (lockFd st) as [fd|] eqn:Hfd.
    - by rewrite (releaseLock_with_fd rootDir st fd Hfd).
    - unfold releaseLock. by rewrite Hfd. }
  split; [exact Hnone|]. split; [|split].
  - unfold releaseLock at 1. by rewrite Hnone.
  - intros Hfd. unfold releaseLock. by rewrite Hfd.
  - intros fd raw Hfd Hraw. rewrite (releaseLock_with_fd rootDir st fd Hfd). simpl.
    rewrite Hraw. apply lookup_delete_eq.
Qed.

Lemma releaseLock_idempotent_witness :
  releaseLock "/tmp/db" (Fixtures.world (Dir []) (Some (Fixtures.lock_of "7"))) =
  Fixtures.world (Dir []) (Some (Fixtures.lock_of "7")).
Proof.
  apply (proj1 (proj2 (proj2 (releaseLock_idempotent "/tmp/db"
                                (Fixtures.world (Dir []) (Some (Fixtures.lock_of "7"))))))).
  reflexivity.
Defined.

(** X6. After acquire and release the directory can be acquired again, by
    any process and whatever the probe says. *)
Theorem acquireLock_after_releaseLock o1 o2 rootDir st st1 st2 :
  acquireLock o1 rootDir st = (st1, None) →
  fs st2 = fs (releaseLock rootDir st1) →
  snd (acquireLock o2 rootDir st2) = None ∧
  fs (fst (acquireLock o2 rootDir st2)) !! lockPathOf rootDir =
    Some (File (lockRecord o2)).
Proof.
  intros Hacq Hfs.
  pose proof (releaseLock_undoes_acquireLock_aux o1 rootDir st st1 Hacq) as Hrel.
  assert (Hgone : fs st2 !! lockPathOf rootDir = None).
  { rewrite Hfs, Hrel. apply lookup_delete_eq. }
  rewrite acquireLock_writes.
  - simpl. by rewrite lookup_insert_eq.
  - by rewrite acquireLock_check_spec, Hgone.
  - intros es. by rewrite Hgone.
Qed.

Lemma acquireLock_after_releaseLock_witness :
  snd (acquireLock Fixtures.host_after_crash "/tmp/db"
         (releaseLock "/tmp/db"
            (fst (acquireLock Fixtures.host "/tmp/db" (Fixtures.world (Dir []) None))))) =
  None.
Proof.
  apply (acquireLock_after_releaseLock Fixtures.host Fixtures.host_after_crash "/tmp/db"
           (Fixtures.world (Dir []) None)
           (fst (acquireLock Fixtures.host "/tmp/db" (Fixtures.world (Dir []) None))));
    [vm_compute; reflexivity | reflexivity].
Defined.
End LockLife.

(** ** The detector and the open path *)

Section OpenPath.
Import JS NodeFS.
Implicit Types (o : os) (rootDir : string) (st : state) (es : list (string * node)).

Lemma str_app_inv_head (a b c : string) : a +:+ b = a +:+ c → b = c.
Proof.
  induction a as [|x a IH]; [by rewrite !str_app_nil_l|].
  rewrite !str_app_cons. intros [= H]. by apply IH.
Qed.

Lemma lockPath_ne_rootDir rootDir : lockPathOf rootDir ≠ rootDir.
Proof. apply str_append_cons_ne. Qed.

Lemma lockPath_ne_backupPath o rootDir : lockPathOf rootDir ≠ backupPathOf o rootDir.
Proof.
  unfold lockPathOf, backupPathOf. intros H%str_app_inv_head. discriminate H.
Qed.

(** [#moveDataDirToBackup] either fails at the rename and changes nothing,
    or is the quarantine. *)
Lemma moveDataDirToBackup_cases o rootDir st es :
  fs st !! rootDir = Some (Dir es) →
  fst (moveDataDirToBackup o rootDir st) = st ∨
  fst (moveDataDirToBackup o rootDir st) = quarantined o rootDir es st.
Proof.
  intros Hr. unfold moveDataDirToBackup, renameSync, mkdirSync. rewrite Hr.
  destruct (fs st !! backupPathOf o rootDir) as [[c|[|e1 es1]]|] eqn:Hb; simpl;
    try (by left);
    rewrite lookup_insert_ne by apply backupPath_ne_rootDir;
    rewrite lookup_delete_eq; by right.
Qed.

Lemma cleanPartialInit_cases o rootDir st :
  cleanPartialInit o rootDir st = st ∨
  ∃ es, fs st !! rootDir = Some (Dir es) ∧ es ≠ [] ∧
        cleanPartialInit o rootDir st = quarantined o rootDir es st.
Proof.
  remember (cleanPartialInit o rootDir st) as R eqn:HR.
  unfold cleanPartialInit, readdirSync at 1, stat in HR.
  destruct (fs st !! rootDir) as [[c|es]|] eqn:Hr; simpl in HR; try by left.
  destruct es as [|e es]; [by left|]. simpl in HR.
  assert (Hq : fst (moveDataDirToBackup o rootDir st) = st ∨
               ∃ es', Some (Dir (e :: es)) = Some (Dir es') ∧ es' ≠ [] ∧
                 fst (moveDataDirToBackup o rootDir st) = quarantined o rootDir es' st).
  { destruct (moveDataDirToBackup_cases o rootDir st _ Hr) as [H|H]; [by left|].
    right. eexists. by split; [|split]. }
  destruct (existsSync (fs st) rootDir ["PG_VERSION"%string]); simpl in HR;
    [|by rewrite HR].
  destruct (existsSync (fs st) rootDir ["base"%string]); [|by rewrite HR].
  destruct (readdirSync (fs st) rootDir ["base"%string]) as [?|dbs]; [by left|].
  destruct (length dbs <? 3); [by rewrite HR | by left].
Qed.

(** X7. Whatever the directory looks like, [#cleanPartialInit] either leaves
    the whole state alone or moves the directory aside: its entries are then
    found, all of them, under the backup path, an empty directory stands in
    its place, and one warning names the backup. Nothing is ever deleted. *)
Theorem cleanPartialInit_moves_or_keeps o rootDir st :
  cleanPartialInit o rootDir st = st ∨
  ∃ es, fs st !! rootDir = Some (Dir es) ∧ es ≠ [] ∧
        fs (cleanPartialInit o rootDir st) !! backupPathOf o rootDir = Some (Dir es) ∧
        fs (cleanPartialInit o rootDir st) !! rootDir = Some (Dir []) ∧
        warnings (cleanPartialInit o rootDir st) =
          warnings st ++ [backupWarning (backupPathOf o rootDir)].
Proof.
  destruct (cleanPartialInit_cases o rootDir st) as [H|(es & Hr & Hne & ->)]; [by left|].
  right. exists es. unfold quarantined. simpl.
  rewrite lookup_insert_eq, lookup_insert_ne by (apply not_eq_sym, backupPath_ne_rootDir).
  by rewrite lookup_insert_eq.
Qed.

(** X8. [#cleanPartialInit] is idempotent on every state: after a quarantine
    the directory is empty and a second run, at whatever time, does nothing. *)
Theorem cleanPartialInit_idempotent o o' rootDir st :
  cleanPartialInit o rootDir (cleanPartialInit o rootDir st) = cleanPartialInit o rootDir st ∧
  (cleanPartialInit o rootDir st ≠ st →
   cleanPartialInit o' rootDir (cleanPartialInit o rootDir st) =
   cleanPartialInit o rootDir st).
Proof.
  assert (Hq : ∀ o2 es, cleanPartialInit o2 rootDir (quarantined o rootDir es st) =
                        quarantined o rootDir es st).
  { intros o2 es. unfold cleanPartialInit, readdirSync, stat, quarantined. simpl.
    by rewrite lookup_insert_eq. }
  destruct (cleanPartialInit_cases o rootDir st) as [H|(es & Hr & Hne & H)]; rewrite !H.
  - split; [reflexivity | done].
  - split; [apply Hq | intros _; apply Hq].
Qed.

Lemma cleanPartialInit_other_paths o rootDir st p :
  p ≠ rootDir → p ≠ backupPathOf o rootDir →
  fs (cleanPartialInit o rootDir st) !! p = fs st !! p.
Proof.
  intros Hp1 Hp2.
  destruct (cleanPartialInit_cases o rootDir st) as [->|(es & _ & _ & ->)]; [done|].
  unfold quarantined. simpl.
  by rewrite !lookup_insert_ne, lookup_delete_ne by done.
Qed.

Lemma cleanPartialInit_keeps_lock o rootDir st :
  fs (cleanPartialInit o rootDir st) !! lockPathOf rootDir = fs st !! lockPathOf rootDir ∧
  fds (cleanPartialInit o rootDir st) = fds st ∧
  lockFd (cleanPartialInit o rootDir st) = lockFd st.
Proof.
  split.
  - apply cleanPartialInit_other_paths;
      [apply lockPath_ne_rootDir | apply lockPath_ne_backupPath].
  - destruct (cleanPartialInit_cases o rootDir st) as [->|(es & _ & _ & ->)]; by split.
Qed.

Lemma cleanPartialInit_idempotent_witness :
  cleanPartialInit Fixtures.host_after_crash "/tmp/db"
    (cleanPartialInit Fixtures.host "/tmp/db"
       (Fixtures.world (Dir Fixtures.barely_started) None)) =
  cleanPartialInit Fixtures.host "/tmp/db"
    (Fixtures.world (Dir Fixtures.barely_started) None).
Proof.
  apply (proj2 (cleanPartialInit_idempotent Fixtures.host Fixtures.host_after_crash
                  "/tmp/db" (Fixtures.world (Dir Fixtures.barely_started) None))).
  intros H. apply (f_equal (λ s, fs s !! "/tmp/db"%string)) in H.
  vm_compute in H. discriminate H.
Defined.

(** X9. [#cleanPartialInit] writes to the data directory path and to the
    backup path only: every other path, the lock file among them, the
    descriptor table and [#lockFd] are as before. *)
Theorem cleanPartialInit_frame o rootDir st :
  (∀ p, p ≠ rootDir → p ≠ backupPathOf o rootDir →
        fs (cleanPartialInit o rootDir st) !! p = fs st !! p) ∧
  fs (cleanPartialInit o rootDir st) !! lockPathOf rootDir = fs st !! lockPathOf rootDir ∧
  fds (cleanPartialInit o rootDir st) = fds st ∧
  lockFd (cleanPartialInit o rootDir st) = lockFd st.
Proof.
  split; [intros p; apply cleanPartialInit_other_paths | apply cleanPartialInit_keeps_lock].
Qed.

Lemma cleanPartialInit_frame_witness :
  fs (cleanPartialInit Fixtures.host "/tmp/db"
        (Fixtures.world (Dir Fixtures.half_copied) (Some (Fixtures.lock_of "42"))))
     !! "/tmp/db.lock" = Some (Fixtures.lock_of "42").
Proof.
  rewrite (proj1 (cleanPartialInit_frame Fixtures.host "/tmp/db"
                    (Fixtures.world (Dir Fixtures.half_copied)
                       (Some (Fixtures.lock_of "42")))) "/tmp/db.lock");
    [vm_compute; reflexivity | discriminate | vm_compute; discriminate].
Defined.

(** X10. Whenever [init] returns normally the caller holds the lock: the
    marker carries its record and [#lockFd] its open descriptor, whether or
    not the detector moved the directory in between. *)
Theorem init_returns_with_lock o rootDir st st' :
  init o rootDir st = (st', None) →
  fs st' !! lockPathOf rootDir = Some (File (lockRecord o)) ∧
  ∃ fd, lockFd st' = Some fd ∧ fds st' !! fd = Some (Some (lockPathOf rootDir)).
Proof.
  unfold init. destruct (acquireLock o rootDir st) as [st1 [e|]] eqn:Hacq; [discriminate|].
  intros [= <-]. apply acquireLock_success in Hacq.
  destruct (cleanPartialInit_keeps_lock o rootDir st1) as (Hlock & Hfds & Hfd).
  rewrite Hlock, Hfds, Hfd. subst st1. simpl. split; [by rewrite lookup_insert_eq|].
  eexists. split; [reflexivity | apply alloc_fd_lookup].
Qed.

Lemma init_returns_with_lock_witness :
  fs (fst (init Fixtures.host "/tmp/db" (Fixtures.world (Dir Fixtures.no_base) None)))
    !! "/tmp/db.lock" = Some (File (lockRecord Fixtures.host)) ∧
  fs (fst (init Fixtures.host "/tmp/db" (Fixtures.world (Dir Fixtures.no_base) None)))
    !! "/tmp/db" = Some (Dir []).
Proof.
  split; [|vm_compute; reflexivity].
  apply (init_returns_with_lock Fixtures.host "/tmp/db"
           (Fixtures.world (Dir Fixtures.no_base) None)).
  vm_compute. reflexivity.
Defined.

(** X11. An [init] refused by a live holder changes nothing at all: the
    detector does not run, so a directory that the holder is still
    initialising is not moved away under it. *)
Theorem init_refused_changes_nothing o rootDir st st' r p l :
  init o rootDir st = (st', Some (LockedErr r p l)) →
  st' = st ∧ isProcessAlive o p = true ∧
  ∃ raw, fs st !! lockPathOf rootDir = Some (File raw) ∧ ownerPid raw = Some p.
Proof.
  unfold init. destruct (acquireLock o rootDir st) as [st1 [e|]] eqn:Hacq; [|discriminate].
  intros [= <- ->].
  destruct (acquireLock_throw_cases o rootDir st (LockedErr r p l)) as [[Hc Hst]|[_ H]].
  - by rewrite Hacq.
  - rewrite Hacq in Hst. simpl in Hst. split; [exact Hst|].
    rewrite acquireLock_check_spec in Hc.
    destruct (fs st !! lockPathOf rootDir) as [[raw|?]|]; try discriminate.
    destruct (ownerPid raw) as [p0|] eqn:Hp; [|discriminate].
    destruct (isProcessAlive o p0) eqn:Ha; [|discriminate].
    injection Hc as _ -> _. eauto.
  - destruct H as (c & m & H). discriminate H.
Qed.

Lemma init_refused_changes_nothing_witness :
  fst (init Fixtures.host "/tmp/db"
         (Fixtures.world (Dir Fixtures.half_copied) (Some (Fixtures.lock_of "7")))) =
    Fixtures.world (Dir Fixtures.half_copied) (Some (Fixtures.lock_of "7")) ∧
  fst (init Fixtures.host "/tmp/db"
         (Fixtures.world (Dir Fixtures.half_copied)
            (Some (File (nbsp +:+ Fixtures.lock_text "7"))))) =
    Fixtures.world (Dir Fixtures.half_copied)
      (Some (File (nbsp +:+ Fixtures.lock_text "7"))).
Proof.
  split.
  - apply (init_refused_changes_nothing Fixtures.host "/tmp/db"
             (Fixtures.world (Dir Fixtures.half_copied) (Some (Fixtures.lock_of "7")))
             _ "/tmp/db" 7%Z "/tmp/db.lock").
    vm_compute. reflexivity.
  - apply (init_refused_changes_nothing Fixtures.host "/tmp/db"
             (Fixtures.world (Dir Fixtures.half_copied)
                (Some (File (nbsp +:+ Fixtures.lock_text "7"))))
             _ "/tmp/db" 7%Z "/tmp/db.lock").
    vm_compute. reflexivity.
Defined.

(** X12. Opening a path where nothing exists, neither directory nor marker:
    the constructor creates an empty directory, [init] takes the lock, and
    the detector finds nothing to move; no other path changes and no warning
    is printed. A directory that exists is left to [init] as it is. *)
Theorem open_fresh_path o rootDir st :
  (fs st !! rootDir = None → fs st !! lockPathOf rootDir = None →
   snd (construct rootDir st) = None ∧
   snd (init o rootDir (fst (construct rootDir st))) = None ∧
   fs (fst (init o rootDir (fst (construct rootDir st)))) =
     <[lockPathOf rootDir := File (lockRecord o)]> (<[rootDir := Dir []]> (fs st)) ∧
   warnings (fst (init o rootDir (fst (construct rootDir st)))) = warnings st) ∧
  (is_Some (fs st !! rootDir) → construct rootDir st = (st, None)).
Proof.
  split.
  - intros Hroot Hlock.
    assert (Hc : construct rootDir st = (set_fs st (<[rootDir := Dir []]> (fs st)), None)).
    { unfold construct, existsSync, stat, mkdirSync. by rewrite Hroot. }
    rewrite Hc. simpl. split; [reflexivity|].
    set (st1 := set_fs st (<[rootDir := Dir []]> (fs st))).
    assert (Hl1 : fs st1 !! lockPathOf rootDir = None).
    { unfold st1. simpl. rewrite lookup_insert_ne by (apply not_eq_sym, lockPath_ne_rootDir).
      exact Hlock. }
    unfold init. rewrite acquireLock_writes.
    + simpl. unfold cleanPartialInit, readdirSync, stat. simpl.
      rewrite lookup_insert_ne by apply lockPath_ne_rootDir.
      rewrite lookup_insert_eq. simpl. done.
    + by rewrite acquireLock_check_spec, Hl1.
    + intros es. by rewrite Hl1.
  - intros [n Hn]. unfold construct, existsSync, stat. by rewrite Hn.
Qed.

Lemma open_fresh_path_witness :
  fs (fst (init Fixtures.host "/tmp/db" (fst (construct "/tmp/db" Fixtures.nothing)))) =
  <[lockPathOf "/tmp/db" := File (lockRecord Fixtures.host)]>
    (<["/tmp/db"%string := Dir []]> (fs Fixtures.nothing)).
Proof.
  apply (proj1 (open_fresh_path Fixtures.host "/tmp/db" Fixtures.nothing));
    vm_compute; reflexivity.
Defined.
End OpenPath.

(** ** Naming and removing test directories *)

Section TestDirs.
Import JS NodeFS HarnessFiles.
Implicit Types (f : gmap string node) (dataDir : string).

(** X13. [cleanupDataDir] removes the data directory with all it holds and
    the marker file beside it, and nothing else: a backup left by a
    quarantine stays on disk. Run again, it finds nothing to do. *)
Theorem cleanupDataDir_removes_dir_and_lock f dataDir :
  (∀ es, f !! (dataDir +:+ ".lock") ≠ Some (Dir es)) →
  cleanupDataDir f dataDir = (delete (dataDir +:+ ".lock") (delete dataDir f), None) ∧
  (cleanupDataDir f dataDir).1 !! dataDir = None ∧
  (cleanupDataDir f dataDir).1 !! lockPathOf dataDir = None ∧
  (∀ p, p ≠ dataDir → p ≠ lockPathOf dataDir → (cleanupDataDir f dataDir).1 !! p = f !! p) ∧
  (∀ o, (cleanupDataDir f dataDir).1 !! backupPathOf o dataDir = f !! backupPathOf o dataDir) ∧
  cleanupDataDir (cleanupDataDir f dataDir).1 dataDir = cleanupDataDir f dataDir.
Proof.
  intros Hlock.
  assert (Hne : dataDir +:+ ".lock" ≠ dataDir) by apply str_append_cons_ne.
  assert (H1 : (if existsSync f dataDir [] then rmSync_rf f dataDir else f) = delete dataDir f).
  { unfold existsSync, stat, rmSync_rf.
    destruct (f !! dataDir) as [n|] eqn:E; [by destruct n | by rewrite delete_id]. }
  assert (Hc : ∀ g, (∀ es, g !! (dataDir +:+ ".lock") ≠ Some (Dir es)) →
            cleanupDataDir g dataDir = (delete (dataDir +:+ ".lock") (delete dataDir g), None)).
  { intros g Hg. unfold cleanupDataDir.
    assert (H1g : (if existsSync g dataDir [] then rmSync_rf g dataDir else g) =
                  delete dataDir g).
    { unfold existsSync, stat, rmSync_rf.
      destruct (g !! dataDir) as [n|] eqn:E; [by destruct n | by rewrite delete_id]. }
    rewrite H1g. unfold existsSync, stat, rmSync_f.
    rewrite lookup_delete_ne by done.
    destruct (g !! (dataDir +:+ ".lock")) as [[c|es]|] eqn:E; simpl.
    - reflexivity.
    - by destruct (Hg es).
    - rewrite (delete_id (delete dataDir g)); [reflexivity|].
      by rewrite lookup_delete_ne. }
  rewrite (Hc f Hlock). simpl. unfold lockPathOf.
  split; [reflexivity|]. split; [|split; [|split; [|split]]].
  - rewrite lookup_delete_ne by done. apply lookup_delete_eq.
  - apply lookup_delete_eq.
  - intros p Hp1 Hp2. by rewrite !lookup_delete_ne.
  - intros o. rewrite !lookup_delete_ne; [reflexivity | |].
    + apply not_eq_sym, backupPath_ne_rootDir.
    + apply (lockPath_ne_backupPath o dataDir).
  - rewrite Hc.
    + f_equal. rewrite (delete_id _ dataDir); [apply delete_delete_eq|].
      rewrite lookup_delete_ne by done. apply lookup_delete_eq.
    + intros es. by rewrite lookup_delete_eq.
Qed.

Lemma cleanupDataDir_removes_dir_and_lock_witness :
  (cleanupDataDir
     (fs (cleanPartialInit Fixtures.host "/tmp/db"
            (Fixtures.world (Dir Fixtures.half_copied) (Some (Fixtures.lock_of "42")))))
     "/tmp/db").1 !! backupPathOf Fixtures.host "/tmp/db" =
  Some (Dir Fixtures.half_copied).
Proof.
  assert (Hl : ∀ es,
    fs (cleanPartialInit Fixtures.host "/tmp/db"
          (Fixtures.world (Dir Fixtures.half_copied) (Some (Fixtures.lock_of "42"))))
      !! ("/tmp/db" +:+ ".lock") ≠ Some (Dir es)).
  { intros es. vm_compute. discriminate. }
  rewrite (proj1 (proj2 (proj2 (proj2 (proj2
             (cleanupDataDir_removes_dir_and_lock _ _ Hl))))) Fixtures.host).
  vm_compute. reflexivity.
Defined.

Lemma no_sep_app (c : ascii) (a b : string) :
  no_sep c (a +:+ b) = no_sep c a && no_sep c b.
Proof.
  induction a as [|x a IH]; [by rewrite str_app_nil_l|].
  rewrite str_app_cons. simpl. by rewrite IH, andb_assoc.
Qed.

Lemma str_append_assoc (a b c : string) : (a +:+ b) +:+ c = a +:+ (b +:+ c).
Proof.
  induction a as [|x a IH]; rewrite ?str_app_nil_l, ?str_app_cons;
    [reflexivity | by rewrite IH].
Qed.

(** A marker path is never below its directory when the directory path does
    not end in a separator. *)
Lemma lock_not_inside (rootDir : string) :
  List.last (segments rootDir) EmptyString ≠ EmptyString →
  inside rootDir (lockPathOf rootDir) = false.
Proof.
  intros Hlast. unfold inside, dir_segments.
  destruct (List.last (segments rootDir) EmptyString) eqn:E; [done|].
  rewrite segments_lockPath, length_removelast_snoc by apply split_not_nil.
  apply andb_false_iff. left. apply Nat.ltb_irrefl.
Qed.

(** X14. Every path [testDataDir] makes, whatever the scenario name, the
    clock and the random suffix (which holds no separator), ends in a
    non-empty segment: the marker of such a directory is its sibling, never
    inside it, and is the file [cleanupDataDir] removes. *)
Theorem testDataDir_lock_is_sibling (scenarioName : string) (now : Z) (rand : string) :
  no_sep sep rand = true →
  List.last (segments (testDataDir scenarioName now rand)) EmptyString ≠ EmptyString ∧
  inside (testDataDir scenarioName now rand)
         (lockPathOf (testDataDir scenarioName now rand)) = false ∧
  lockPathOf (testDataDir scenarioName now rand) =
    testDataDir scenarioName now rand +:+ ".lock".
Proof.
  intros Hrand.
  assert (Hlast : List.last (segments (testDataDir scenarioName now rand)) EmptyString
                  ≠ EmptyString).
  { unfold testDataDir, segments.
    rewrite <- (str_append_assoc "/tmp/pglite-crash-" scenarioName).
    rewrite split_app_no_sep.
    - rewrite last_snoc. rewrite str_app_cons.
      destruct (List.last _ _); discriminate.
    - rewrite !no_sep_app, Hrand.
      destruct (toString_decimal now) as [_ Hd].
      by rewrite (all_chars_no_sep sep (toString now)). }
  split; [exact Hlast|]. split; [by apply lock_not_inside | reflexivity].
Qed.

Lemma testDataDir_lock_is_sibling_witness :
  inside (testDataDir "rapid-restart" 1700000000000 "k3x9qa")
         (lockPathOf (testDataDir "rapid-restart" 1700000000000 "k3x9qa")) = false.
Proof.
  apply (testDataDir_lock_is_sibling "rapid-restart" 1700000000000 "k3x9qa").
  reflexivity.
Defined.
End TestDirs.

(** ** More on [crashTest] *)

Section CrashTestMore.
Import JS Harness.
Implicit Types (o : options) (st : hstate) (e : event) (evs pre post : list event).

Lemma run_cons o st e evs : run o st (e :: evs) = run o (step o st e) evs.
Proof. reflexivity. Qed.

(** What a handler does to the list of sent signals. *)
Lemma step_sent o st e :
  sent (step o st e) = sent st ∨
  (killed st = false ∧
   (sent (step o st e) = sent st ++ [signal o] ∨
    sent (step o st e) = sent st ++ ["SIGKILL"%string])).
Proof.
  destruct e; simpl; unfold on_message;
    repeat match goal with
           | |- context [match trigger o with _ => _ end] => destruct (trigger o)
           | |- context [if strict_eq ?m ?k && _ then _ else _] => destruct (strict_eq m k)
           | |- context [if killTimerPending st then _ else _] =>
               destruct (killTimerPending st)
           | |- context [if safetyPending st then _ else _] => destruct (safetyPending st)
           | |- context [negb (killed st)] => destruct (killed st) eqn:?
           | _ => progress simpl
           end; auto.
Qed.

Lemma run_sent_signals o st evs :
  (∀ s, s ∈ sent st → s = signal o ∨ s = "SIGKILL"%string) →
  ∀ s, s ∈ sent (run o st evs) → s = signal o ∨ s = "SIGKILL"%string.
Proof.
  revert st. induction evs as [|e evs IH]; intros st Hst; [exact Hst|].
  rewrite run_cons. apply IH. intros s.
  destruct (step_sent o st e) as [->|[_ [->| ->]]]; [apply Hst|..];
    rewrite elem_of_app, list_elem_of_singleton; intros [H| ->]; auto.
Qed.

(** X15. Whatever the options and whatever happens, [crashTest] calls
    [child.kill] at most once; the flag [killed] is up exactly when it did;
    and what it sent is the configured signal or SIGKILL. *)
Theorem crashTest_sends_at_most_one_signal o evs :
  length (sent (crashTest o evs)) ≤ 1 ∧
  (killed (crashTest o evs) = true ↔ sent (crashTest o evs) ≠ []) ∧
  (∀ s, s ∈ sent (crashTest o evs) → s = signal o ∨ s = "SIGKILL"%string).
Proof.
  split; [|split].
  - destruct (crashTest_one_kill_at_most o evs) as [[_ ->]|[_ [s ->]]]; simpl; lia.
  - destruct (crashTest_one_kill_at_most o evs) as [[-> ->]|[-> [s ->]]]; split; done.
  - apply run_sent_signals. intros s Hs. simpl in Hs. by apply elem_of_nil in Hs.
Qed.

Lemma run_messages o st evs :
  messages (run o st evs) = messages st ++ messages_of evs.
Proof.
  revert st. induction evs as [|e evs IH]; intros st; [by rewrite app_nil_r|].
  rewrite run_cons, IH. unfold messages_of.
  destruct e; simpl; try reflexivity.
  - unfold on_message. destruct (trigger o) as [k|]; simpl;
      [destruct (strict_eq msg k && negb (killed st)); simpl|]; by rewrite <- app_assoc.
  - by destruct (killTimerPending st), (killed st).
  - by destruct (safetyPending st), (killed st).
Qed.

Lemma str_append_nil_r (a : string) : a +:+ EmptyString = a.
Proof.
  induction a as [|x a IH]; rewrite ?str_app_nil_l, ?str_app_cons;
    [reflexivity | by rewrite IH].
Qed.

Lemma run_stdout o st evs :
  stdout (run o st evs) = stdout st +:+ stdout_of evs ∧
  stderr (run o st evs) = stderr st +:+ stderr_of evs.
Proof.
  revert st. induction evs as [|e evs IH]; intros st; [by rewrite !str_append_nil_r|].
  rewrite run_cons. destruct (IH (step o st e)) as [-> ->].
  destruct e; simpl; rewrite ?str_append_assoc; try done.
  - unfold on_message. destruct (trigger o) as [k|]; simpl;
      [destruct (strict_eq msg k && negb (killed st)); simpl|]; done.
  - by destruct (killTimerPending st), (killed st).
  - by destruct (safetyPending st), (killed st).
Qed.

Lemma step_settled o st e r : settled st = Some r → settled (step o st e) = Some r.
Proof.
  intros H. destruct e; simpl; try done.
  - unfold on_message. destruct (trigger o) as [k|]; simpl;
      [destruct (strict_eq msg k && negb (killed st)); simpl|]; done.
  - by rewrite H.
  - by destruct (killTimerPending st), (killed st).
  - by destruct (safetyPending st), (killed st).
Qed.

Lemma run_settled o st evs r : settled st = Some r → settled (run o st evs) = Some r.
Proof.
  revert st. induction evs as [|e evs IH]; intros st H; [exact H|].
  rewrite run_cons. by apply IH, step_settled.
Qed.

Lemma run_pending o st evs :
  forallb (λ e, negb (is_exit e)) evs = true → settled st = None →
  settled (run o st evs) = None.
Proof.
  revert st. induction evs as [|e evs IH]; intros st Hevs H; [exact H|].
  simpl in Hevs. apply andb_true_iff in Hevs as [He Hevs].
  rewrite run_cons. apply IH; [exact Hevs|].
  destruct e; simpl; try done.
  - unfold on_message. destruct (trigger o) as [k|]; simpl;
      [destruct (strict_eq msg k && negb (killed st)); simpl|]; done.
  - by destruct (killTimerPending st), (killed st).
  - by destruct (safetyPending st), (killed st).
Qed.

(** X16. The promise is resolved by the first exit and keeps its value: the
    exit code and signal are those of that exit, and the captured output is
    what had arrived before it. The transcript is the array the handler keeps
    pushing to, so it holds every message in arrival order, those that arrive
    after the exit included. *)
Theorem crashTest_result_is_first_exit o pre code sig post :
  forallb (λ e, negb (is_exit e)) pre = true →
  ∃ r, result (crashTest o (pre ++ OnExit code sig :: post)) = Some r ∧
       workerExitCode r = code ∧ workerSignal r = sig ∧
       r_stdout r = stdout_of pre ∧ r_stderr r = stderr_of pre ∧
       workerMessages r = messages_of pre ++ messages_of post ∧
       messages (crashTest o pre) = messages_of pre.
Proof.
  intros Hpre. unfold crashTest.
  pose proof (run_pending o (init o) pre Hpre eq_refl) as Hpending.
  destruct (run_stdout o (init o) pre) as [Hout Herr]. simpl in Hout, Herr.
  pose proof (run_messages o (init o) pre) as Hmsg. simpl in Hmsg.
  rewrite run_app, run_cons.
  set (st := run o (init o) pre) in *.
  assert (Hset : settled (step o st (OnExit code sig)) =
                 Some {| s_workerKilled :=
                           match sig with
                           | Some s => String.eqb s (signal o)
                           | None => false
                           end || killed st;
                         s_workerError := workerError st;
                         s_workerExitCode := code; s_workerSignal := sig;
                         s_stdout := stdout st; s_stderr := stderr st |}).
  { simpl. by rewrite Hpending. }
  unfold result. rewrite (run_settled o _ post _ Hset).
  eexists. split; [reflexivity|]. simpl.
  rewrite run_messages. simpl. rewrite Hmsg, Hout, Herr.
  repeat split; by rewrite ?str_app_nil_l.
Qed.

Lemma crashTest_result_is_first_exit_witness :
  ∃ r, result (crashTest Fixtures.kill_on_inserting
                 ([OnMessage (MsgStr "inserting"); OnStdout "a"] ++
                  OnExit None (Some "SIGKILL"%string) ::
                  [OnStdout "b"; OnMessage (MsgStr "late"); OnExit (Some 0%Z) None])) =
         Some r ∧
       workerExitCode r = None ∧ workerSignal r = Some "SIGKILL"%string ∧
       r_stdout r = "a"%string ∧
       workerMessages r = [MsgStr "inserting"; MsgStr "late"].
Proof.
  destruct (crashTest_result_is_first_exit Fixtures.kill_on_inserting
              [OnMessage (MsgStr "inserting"); OnStdout "a"] None (Some "SIGKILL"%string)
              [OnStdout "b"; OnMessage (MsgStr "late"); OnExit (Some 0%Z) None] eq_refl)
    as (r & Hr & Hc & Hs & Ho & _ & Hm & _).
  exists r. by repeat split.
Defined.
End CrashTestMore.

(** ** The timers of [crashTest] *)

Section CrashTestTimers.
Import JS Harness.
Implicit Types (o : options) (st : hstate) (e : event) (evs pre post : list event).

(** Without a trigger, before the timers and the exit, nothing raises the
    flag and both timers stay scheduled. *)
Lemma run_before_timers o st pre :
  trigger o = None →
  Forall before_timers pre →
  killed st = false → sent st = [] → killTimerPending st = true →
  safetyPending st = true →
  killed (run o st pre) = false ∧ sent (run o st pre) = [] ∧
  killTimerPending (run o st pre) = true ∧ safetyPending (run o st pre) = true.
Proof.
  intros Ht Hpre. revert st.
  induction Hpre as [|e pre He Hpre IH]; intros st Hk Hs Hp Hsafe.
  - by repeat split.
  - rewrite run_cons. apply IH; destruct e; simpl in *; try assumption; try contradiction.
    all: unfold on_message; rewrite Ht; simpl; assumption.
Qed.

(** Without a trigger and with the delay timer cleared, only the safety
    timer can send something. *)
Lemma run_without_timers o st evs :
  trigger o = None →
  SafetyTimerFires ∉ evs →
  killed st = false → sent st = [] → killTimerPending st = false →
  sent (run o st evs) = [].
Proof.
  intros Ht. revert st. induction evs as [|e evs IH]; intros st Hevs Hk Hs Hp; [exact Hs|].
  apply not_elem_of_cons in Hevs as [He Hevs].
  rewrite run_cons. apply IH; [exact Hevs|..]; destruct e; simpl; try assumption;
    try done.
  all: try (unfold on_message; rewrite Ht; simpl; assumption).
  all: try (by rewrite Hp).
  all: try (by destruct (killTimer st)).
Qed.

Lemma step_killTimer o st e :
  (killTimerPending st = true → killTimer st = true) →
  killTimer (step o st e) = killTimer st ∧
  (killTimerPending (step o st e) = true → killTimer (step o st e) = true).
Proof.
  destruct e; simpl; unfold on_message;
    repeat match goal with
           | |- context [match trigger o with _ => _ end] => destruct (trigger o)
           | |- context [if strict_eq ?m ?k && _ then _ else _] => destruct (strict_eq m k)
           | |- context [if safetyPending st then _ else _] => destruct (safetyPending st)
           | |- context [negb (killed st)] => destruct (killed st)
           | _ => progress simpl
           end;
    destruct (killTimerPending st) eqn:Hp; simpl; rewrite ?Hp;
    destruct (killTimer st); simpl; intuition congruence.
Qed.

Lemma run_killTimer o st evs :
  (killTimerPending st = true → killTimer st = true) →
  killTimerPending (run o st evs) = true → killTimer (run o st evs) = true.
Proof.
  revert st. induction evs as [|e evs IH]; intros st H; [exact H|].
  rewrite run_cons. apply IH. by apply step_killTimer.
Qed.

Lemma run_safetyPending o st evs :
  SafetyTimerFires ∉ evs → safetyPending (run o st evs) = safetyPending st.
Proof.
  revert st. induction evs as [|e evs IH]; intros st Hevs; [reflexivity|].
  apply not_elem_of_cons in Hevs as [He Hevs].
  rewrite run_cons, (IH _ Hevs).
  destruct e; simpl; try done.
  - unfold on_message. destruct (trigger o) as [k|]; simpl;
      [destruct (strict_eq msg k && negb (killed st)); simpl|]; done.
  - by destruct (killTimerPending st), (killed st).
Qed.

Lemma cleared_timer_is_silent o st :
  killTimerPending st = false → step o st KillTimerFires = st.
Proof. intros H. simpl. by rewrite H. Qed.

(** X17. Without a message trigger ([killOnMessage] null, undefined or the
    empty string) no message sends anything, whatever it says. As long as
    only output, messages and errors have come, nothing is sent. What comes
    first among the expiry of the delay timer, the expiry of the safety
    timer and the worker's exit decides: the delay timer sends the
    configured signal, and nothing is sent after that; the safety timer,
    which is first when the delay is longer than its thirty seconds, sends
    SIGKILL, and nothing is sent after that, not by the delay timer either;
    after the exit the delay timer is cleared and nothing is sent unless
    the safety timer expires. *)
Theorem kill_once_when_delay_expires o pre post :
  trigger o = None →
  Forall before_timers pre →
  sent (crashTest o pre) = [] ∧
  sent (crashTest o (pre ++ [KillTimerFires])) = [signal o] ∧
  sent (crashTest o (pre ++ KillTimerFires :: post)) = [signal o] ∧
  sent (crashTest o (pre ++ SafetyTimerFires :: post)) = ["SIGKILL"%string] ∧
  sent (crashTest o (pre ++ SafetyTimerFires :: post ++ [KillTimerFires])) =
    ["SIGKILL"%string] ∧
  (∀ code sig, SafetyTimerFires ∉ post →
               sent (crashTest o (pre ++ OnExit code sig :: post)) = []).
Proof.
  intros Ht Hpre.
  assert (Hinit : killTimerPending (init o) = true).
  { unfold init. by rewrite Ht. }
  destruct (run_before_timers o (init o) pre Ht Hpre eq_refl eq_refl Hinit eq_refl)
    as (Hk & Hs & Hp & Hsafe).
  assert (Hstep : killed (step o (crashTest o pre) KillTimerFires) = true ∧
                  sent (step o (crashTest o pre) KillTimerFires) = [signal o]).
  { unfold crashTest. simpl. rewrite Hp. simpl. rewrite Hk. simpl. by rewrite Hs. }
  assert (Hsafety : killed (step o (crashTest o pre) SafetyTimerFires) = true ∧
                    sent (step o (crashTest o pre) SafetyTimerFires) =
                      ["SIGKILL"%string]).
  { unfold crashTest. simpl. rewrite Hsafe. simpl. rewrite Hk. simpl. by rewrite Hs. }
  destruct Hstep as [Hk1 Hs1]. destruct Hsafety as [Hk2 Hs2].
  assert (Hafter : ∀ evs, sent (crashTest o (pre ++ SafetyTimerFires :: evs)) =
                          ["SIGKILL"%string]).
  { intros evs. unfold crashTest in *. rewrite run_app, run_cons.
    destruct (run_after_kill o _ evs Hk2) as [_ ->]. exact Hs2. }
  split; [exact Hs|]. unfold crashTest in *. split; [|split; [|split; [|split]]].
  - by rewrite run_snoc.
  - rewrite run_app, run_cons.
    destruct (run_after_kill o _ post Hk1) as [_ ->]. exact Hs1.
  - apply Hafter.
  - apply Hafter.
  - intros code sig Hpost. rewrite run_app, run_cons.
    apply (run_without_timers o _ post Ht Hpost); simpl; try assumption.
    rewrite (run_killTimer o (init o) pre); [reflexivity | | exact Hp].
    unfold init. by rewrite Ht.
Qed.

Lemma kill_once_when_delay_expires_witness :
  sent (crashTest Fixtures.empty_trigger
          ([OnMessage (MsgStr EmptyString); OnMessage (MsgStr "ready")] ++
           KillTimerFires :: [OnMessage (MsgStr EmptyString); SafetyTimerFires])) =
    ["SIGKILL"%string] ∧
  sent (crashTest Fixtures.sigterm_after_delay
          ([OnMessage (MsgStr "ready")] ++ KillTimerFires :: [SafetyTimerFires])) =
    ["SIGTERM"%string] ∧
  sent (crashTest Fixtures.sigterm_after_delay
          ([OnMessage (MsgStr "ready")] ++ SafetyTimerFires :: [SafetyTimerFires] ++
           [KillTimerFires])) =
    ["SIGKILL"%string].
Proof.
  pose proof (kill_once_when_delay_expires Fixtures.empty_trigger
                [OnMessage (MsgStr EmptyString); OnMessage (MsgStr "ready")]
                [OnMessage (MsgStr EmptyString); SafetyTimerFires]
                eq_refl ltac:(repeat constructor)) as (_ & _ & H3 & _).
  pose proof (kill_once_when_delay_expires Fixtures.sigterm_after_delay
                [OnMessage (MsgStr "ready")] [SafetyTimerFires]
                eq_refl ltac:(repeat constructor)) as (_ & _ & T3 & _ & T5 & _).
  split; [exact H3 | split; [exact T3 | exact T5]].
Defined.

(** X18. The exit handler clears the delay timer and not the safety timer:
    after the worker's exit an expiry of the delay timer sends nothing, but
    if nothing was sent before and the safety timer has not fired yet, its
    expiry still calls [child.kill('SIGKILL')], on a worker that is gone. *)
Theorem after_exit_only_safety_timer_is_armed o evs code sig :
  killTimerPending (crashTest o (evs ++ [OnExit code sig])) = false ∧
  sent (crashTest o (evs ++ [OnExit code sig; KillTimerFires])) =
    sent (crashTest o evs) ∧
  (SafetyTimerFires ∉ evs → sent (crashTest o evs) = [] →
   sent (crashTest o (evs ++ [OnExit code sig; SafetyTimerFires])) = ["SIGKILL"%string]).
Proof.
  unfold crashTest.
  assert (Hinv : killTimerPending (run o (init o) evs) = true →
                 killTimer (run o (init o) evs) = true).
  { apply run_killTimer. unfold init. simpl. done. }
  set (st := run o (init o) evs) in *.
  assert (Hp : killTimerPending (step o st (OnExit code sig)) = false).
  { simpl. destruct (killTimer st) eqn:E; [reflexivity|].
    destruct (killTimerPending st); [by specialize (Hinv eq_refl) | reflexivity]. }
  split; [by rewrite run_snoc|]. split.
  - change [OnExit code sig; KillTimerFires] with ([OnExit code sig] ++ [KillTimerFires]).
    rewrite app_assoc, run_snoc, run_snoc. fold st.
    by rewrite (cleared_timer_is_silent o _ Hp).
  - intros Hsafe Hsent.
    change [OnExit code sig; SafetyTimerFires]
      with ([OnExit code sig] ++ [SafetyTimerFires]).
    rewrite app_assoc, run_snoc, run_snoc. fold st.
    assert (Hk : killed st = false).
    { destruct (run_one_kill_at_most o (init o) evs (init_one_kill_at_most o))
        as [[Hk _]|[_ [s Hs]]]; [exact Hk|]. fold st in Hs. by rewrite Hs in Hsent. }
    pose proof (run_safetyPending o (init o) evs Hsafe) as Hsp. fold st in Hsp.
    simpl in Hsp. simpl. rewrite Hsp. simpl. rewrite Hk. simpl. by rewrite Hsent.
Qed.

Lemma after_exit_only_safety_timer_is_armed_witness :
  sent (crashTest Fixtures.kill_on_inserting
          ([OnMessage (MsgStr "ready")] ++ [OnExit (Some 1%Z) None; SafetyTimerFires])) =
  ["SIGKILL"%string].
Proof.
  apply (proj2 (proj2 (after_exit_only_safety_timer_is_armed Fixtures.kill_on_inserting
                         [OnMessage (MsgStr "ready")] (Some 1%Z) None))).
  - intros H. apply list_elem_of_In in H. destruct H as [H|[]]. discriminate H.
  - reflexivity.
Defined.

(** With SIGKILL as the configured signal, the states [crashTest] reaches
    have sent nothing but SIGKILL, and have sent it once the safety timer is
    no longer scheduled. *)
Lemma run_sigkill_safety o st evs :
  signal o = "SIGKILL"%string →
  one_kill_at_most st →
  (∀ s, s ∈ sent st → s = "SIGKILL"%string) →
  (safetyPending st = true ∨ sent st ≠ []) →
  SafetyTimerFires ∈ evs →
  sent (run o st evs) = ["SIGKILL"%string].
Proof.
  intros Hsig. revert st. induction evs as [|e evs IH]; intros st Hone Hall Hsafe Hin.
  - by apply elem_of_nil in Hin.
  - rewrite run_cons.
    assert (Hall' : ∀ s, s ∈ sent (step o st e) → s = "SIGKILL"%string).
    { intros s. destruct (step_sent o st e) as [->|[_ [->| ->]]]; [apply Hall|..];
        rewrite elem_of_app, list_elem_of_singleton; intros [H| ->]; auto. }
    pose proof (step_one_kill_at_most o st e Hone) as Hone'.
    assert (Hdec : e = SafetyTimerFires ∨ e ≠ SafetyTimerFires)
      by (destruct e; (by left) || (by right)).
    destruct Hdec as [->|Hne].
    + assert (Hsent : sent (step o st SafetyTimerFires) ≠ []).
      { simpl. destruct (safetyPending st) eqn:Hp.
        - simpl. destruct (killed st) eqn:Hk; simpl.
          + destruct Hone as [[Hk' _]|[_ [s ->]]]; [congruence | done].
          + by destruct (sent st).
        - by destruct Hsafe. }
      destruct Hone' as [[_ Hs]|[Hk [s Hs]]]; [done|].
      destruct (run_after_kill o _ evs Hk) as [_ ->]. rewrite Hs.
      f_equal. apply Hall'. rewrite Hs. by apply list_elem_of_singleton.
    + apply IH; try assumption.
      * destruct Hsafe as [Hp|Hs].
        -- left. rewrite <- Hp. destruct e; simpl; try done.
           ++ unfold on_message. destruct (trigger o) as [k|]; simpl;
                [destruct (strict_eq msg k && negb (killed st)); simpl|]; done.
           ++ by destruct (killTimerPending st), (killed st).
        -- right. destruct Hone as [[_ Hs']|[Hk _]]; [done|].
           destruct (step_after_kill o st e Hk) as [_ ->]. exact Hs.
      * apply elem_of_cons in Hin as [Heq|Hin]; [congruence | exact Hin].
Qed.

(** X19. With the default signal the safety timer keeps its promise: in
    every run in which it has expired, SIGKILL has been sent, by it or by an
    earlier path. *)
Theorem safety_timer_guarantee_with_sigkill o evs :
  signal o = "SIGKILL"%string →
  SafetyTimerFires ∈ evs →
  sent (crashTest o evs) = ["SIGKILL"%string].
Proof.
  intros Hsig Hin. apply run_sigkill_safety; try assumption.
  - apply init_one_kill_at_most.
  - intros s Hs. simpl in Hs. by apply elem_of_nil in Hs.
  - by left.
Qed.

Lemma safety_timer_guarantee_with_sigkill_witness :
  sent (crashTest Fixtures.kill_on_inserting
          [OnMessage (MsgStr "ready"); SafetyTimerFires;
           OnMessage (MsgStr "inserting")]) = ["SIGKILL"%string].
Proof.
  apply (safety_timer_guarantee_with_sigkill Fixtures.kill_on_inserting).
  - reflexivity.
  - apply list_elem_of_In. simpl. auto.
Defined.
End CrashTestTimers.

(** ** [spawnAndKill] *)

Section SpawnAndKill.
Import JS Harness.
Implicit Types (ks : killStrategy) (st : hstate) (e : sk_event) (evs : list sk_event).

Lemma sk_run_cons ks st e evs :
  fold_left (sk_step ks) (e :: evs) st = fold_left (sk_step ks) evs (sk_step ks st e).
Proof. reflexivity. Qed.

Lemma sk_step_sent ks st e :
  (killed (sk_step ks st e) = killed st ∧ sent (sk_step ks st e) = sent st) ∨
  (killed st = false ∧ killed (sk_step ks st e) = true ∧
   sent (sk_step ks st e) = sent st ++ ["SIGKILL"%string]).
Proof.
  destruct e; simpl;
    repeat match goal with
           | |- context [match sk_truthy ks with _ => _ end] => destruct (sk_truthy ks)
           | |- context [sk_matches ?t ?m] => destruct (sk_matches t m)
           | |- context [if killTimerPending st then _ else _] =>
               destruct (killTimerPending st)
           | |- context [if safetyPending st then _ else _] => destruct (safetyPending st)
           | |- context [negb (killed st)] => destruct (killed st) eqn:?
           | _ => progress simpl
           end; auto.
Qed.

Lemma sk_safety_fires ks st :
  safetyPending st = true →
  killed (sk_step ks st SkSafetyTimerFires) = true ∧
  (killed st = false → sent (sk_step ks st SkSafetyTimerFires) = sent st ++ ["SIGKILL"%string]).
Proof. intros Hp. simpl. rewrite Hp. simpl. by destruct (killed st). Qed.

Lemma sk_safety_pending ks st e :
  e ≠ SkSafetyTimerFires → safetyPending (sk_step ks st e) = safetyPending st.
Proof.
  intros He. destruct e; simpl; try done;
    repeat match goal with
           | |- context [match sk_truthy ks with _ => _ end] => destruct (sk_truthy ks)
           | |- context [sk_matches ?t ?m] => destruct (sk_matches t m)
           | |- context [if killTimerPending st then _ else _] =>
               destruct (killTimerPending st)
           | |- context [negb (killed st)] => destruct (killed st)
           | _ => progress simpl
           end; done.
Qed.

(** The states [spawnAndKill] reaches: the flag is up exactly when SIGKILL
    was sent, once; and it was sent if the safety timer is no longer
    scheduled. *)
Lemma sk_run_invariant ks st evs :
  ((killed st = false ∧ sent st = []) ∨ (killed st = true ∧ sent st = ["SIGKILL"%string])) →
  (safetyPending st = true ∨ killed st = true) →
  ((killed (fold_left (sk_step ks) evs st) = false ∧ sent (fold_left (sk_step ks) evs st) = []) ∨
   (killed (fold_left (sk_step ks) evs st) = true ∧
    sent (fold_left (sk_step ks) evs st) = ["SIGKILL"%string])) ∧
  (SkSafetyTimerFires ∈ evs → sent (fold_left (sk_step ks) evs st) = ["SIGKILL"%string]).
Proof.
  revert st. induction evs as [|e evs IH]; intros st Hone Hsafe.
  - split; [exact Hone|]. intros H. by apply elem_of_nil in H.
  - rewrite sk_run_cons.
    assert (Hone' : (killed (sk_step ks st e) = false ∧ sent (sk_step ks st e) = []) ∨
                    (killed (sk_step ks st e) = true ∧
                     sent (sk_step ks st e) = ["SIGKILL"%string])).
    { destruct (sk_step_sent ks st e) as [[-> ->]|(Hk & -> & ->)]; [exact Hone|].
      right. destruct Hone as [[_ ->]|[Hk' _]]; [done | congruence]. }
    assert (Hdec : e = SkSafetyTimerFires ∨ e ≠ SkSafetyTimerFires)
      by (destruct e; (by left) || (by right)).
    assert (Hsafe' : safetyPending (sk_step ks st e) = true ∨ killed (sk_step ks st e) = true).
    { destruct Hdec as [->|Hne].
      - destruct Hsafe as [Hp|Hk]; [right; by apply sk_safety_fires|].
        right. destruct (sk_step_sent ks st SkSafetyTimerFires) as [[-> _]|(_ & -> & _)]; done.
      - destruct Hsafe as [Hp|Hk]; [left; by rewrite sk_safety_pending|].
        right. destruct (sk_step_sent ks st e) as [[-> _]|(_ & -> & _)]; done. }
    destruct (IH _ Hone' Hsafe') as [Hinv Hfin]. split; [exact Hinv|].
    intros Hin. apply elem_of_cons in Hin as [<-|Hin]; [|by apply Hfin].
    assert (Hk : killed (sk_step ks st SkSafetyTimerFires) = true).
    { destruct Hsafe as [Hp|Hk]; [by apply sk_safety_fires|].
      destruct (sk_step_sent ks st SkSafetyTimerFires) as [[-> _]|(_ & -> & _)]; done. }
    clear Hfin Hsafe'. 
    assert (Hkeep : ∀ evs' st', killed st' = true → sent st' = ["SIGKILL"%string] →
              sent (fold_left (sk_step ks) evs' st') = ["SIGKILL"%string]).
    { induction evs' as [|e' evs' IH']; intros st' Hk' Hs'; [exact Hs'|].
      rewrite sk_run_cons.
      destruct (sk_step_sent ks st' e') as [[Hk2 Hs2]|(Hk2 & _)]; [|congruence].
      apply IH'; congruence. }
    destruct Hone' as [[Hk' _]|[_ Hs']]; [congruence|]. by apply Hkeep.
Qed.

(** X20. [spawnAndKill] sends SIGKILL and nothing else, at most once,
    whatever the strategy (string or predicate trigger, delay, both or
    neither); and in every run in which its safety timer has expired, SIGKILL
    has been sent. *)
Theorem spawnAndKill_sends_sigkill_once ks evs :
  (sent (spawnAndKill ks evs) = [] ∨ sent (spawnAndKill ks evs) = ["SIGKILL"%string]) ∧
  (killed (spawnAndKill ks evs) = true ↔ sent (spawnAndKill ks evs) = ["SIGKILL"%string]) ∧
  (SkSafetyTimerFires ∈ evs → sent (spawnAndKill ks evs) = ["SIGKILL"%string]).
Proof.
  unfold spawnAndKill.
  destruct (sk_run_invariant ks (sk_init ks) evs) as [Hinv Hfin].
  - left. by split.
  - by left.
  - split; [|split; [|exact Hfin]].
    + destruct Hinv as [[_ ->]|[_ ->]]; auto.
    + destruct Hinv as [[-> ->]|[-> ->]]; split; done.
Qed.

Lemma spawnAndKill_sends_sigkill_once_witness :
  sent (spawnAndKill Fixtures.kill_on_ddl_or_late
          [SkMessage (MsgStr "ready"); SkSafetyTimerFires;
           SkMessage (MsgStr "ddl-start")]) = ["SIGKILL"%string].
Proof.
  apply (proj2 (proj2 (spawnAndKill_sends_sigkill_once Fixtures.kill_on_ddl_or_late _))).
  apply list_elem_of_In. simpl. auto.
Defined.
End SpawnAndKill.

(** ** More on [verifyIntegrity] *)

Section VerifyIntegrityMore.
Import JS Harness.

Lemma failures_all_ok (fmt : row → string → string) (rows : list row)
    (results : list (string + list row)) :
  Forall (λ res, ∃ rs, res = inr rs) results → failures fmt rows results = [].
Proof.
  intros H. revert rows. induction H as [|res results [rs ->] _ IH]; intros rows.
  - by destruct rows.
  - destruct rows; [reflexivity|]. apply IH.
Qed.

Lemma exec_all_ok {S : Type} (query : S → string → S * (string + list row))
    (s : S) (stmts : list string) :
  (∀ s q, ∃ s' rows, query s q = (s', inr rows)) →
  Forall (λ res, ∃ rs, res = inr rs) (exec query s stmts).2.
Proof.
  intros H. revert s. induction stmts as [|q qs IH]; intros s; [constructor|].
  cbn [exec]. destruct (H s q) as (s1 & rows & ->).
  specialize (IH s1). destruct (exec query s1 qs) as [s2 rs]. simpl in *.
  constructor; eauto.
Qed.

(** X21. On an engine on which no statement fails, whatever tables and
    indexes it lists, the report is intact and has no issue. *)
Theorem verifyIntegrity_intact_on_healthy_engine {S : Type}
    (query : S → string → S * (string + list row)) (s : S) :
  (∀ s q, ∃ s' rows, query s q = (s', inr rows)) →
  (verifyIntegrity query s).2 = {| intact := true; issues := [] |}.
Proof.
  intros H. unfold verifyIntegrity.
  destruct (H s sql_health) as (s1 & rows0 & ->).
  rewrite table_layer_spec. destruct (H s1 sql_tables) as (s1' & tables & ->).
  rewrite (failures_all_ok _ _ _ (exec_all_ok query s1' _ H)). simpl.
  rewrite index_layer_spec.
  destruct (H (exec query s1' (count_stmt <$> tables)).1 sql_indexes) as (s2' & idxs & ->).
  rewrite (failures_all_ok _ _ _ (exec_all_ok query s2' _ H)). reflexivity.
Qed.

Lemma verifyIntegrity_intact_on_healthy_engine_witness :
  (verifyIntegrity (stateless (λ q, inr [Fixtures.users])) tt).2 =
  {| intact := true; issues := [] |}.
Proof.
  apply (verifyIntegrity_intact_on_healthy_engine (stateless (λ q, inr [Fixtures.users]))).
  intros s q. by exists s, [Fixtures.users].
Defined.

Lemma intact_iff_no_issue {S : Type} (query : S → string → S * (string + list row)) (s : S) :
  intact (verifyIntegrity query s).2 = true ↔ issues (verifyIntegrity query s).2 = [].
Proof.
  unfold verifyIntegrity.
  destruct (query s sql_health) as [s1 [e|rows0]]; simpl; [done|].
  destruct (table_layer query s1 []) as [s2 iss2].
  destruct (index_layer query s2 iss2) as [s3 iss3]. simpl.
  destruct iss3; simpl; split; done.
Qed.

Lemma exec_stateless (answer : string → string + list row) (s : unit) (stmts : list string) :
  exec (stateless answer) s stmts = (s, answer <$> stmts).
Proof.
  induction stmts as [|q qs IH]; [reflexivity|].
  cbn [exec]. unfold stateless at 1. by rewrite IH.
Qed.

Lemma failures_nil_iff (answer : string → string + list row)
    (fmt : row → string → string) (rows : list row) :
  failures fmt rows (answer <$> (count_stmt <$> rows)) = [] ↔
  ∀ r, r ∈ rows → ∃ rs, answer (sql_count (tablename r)) = inr rs.
Proof.
  induction rows as [|r rows IH].
  - split; [|done]. intros _ r Hr. by apply elem_of_nil in Hr.
  - rewrite !fmap_cons. cbn [failures].
    change (count_stmt r) with (sql_count (tablename r)).
    destruct (answer (sql_count (tablename r))) as [e|rs] eqn:E.
    + split; [discriminate|]. intros H.
      destruct (H r) as [rs Hrs]; [by left|]. congruence.
    + rewrite IH. split.
      * intros H r' [->|Hr']%elem_of_cons; eauto.
      * intros H r' Hr'. apply H. by right.
Qed.

(** X22. The check of an index is the count on its table, the statement the
    table layer has already run. So on an engine whose answers depend on the
    statement only, with the listings answered and every index on a listed
    table, the report is intact exactly when the count succeeds on every
    table: the index layer finds nothing the table layer has not found. *)
Theorem verifyIntegrity_index_layer_adds_nothing
    (answer : string → string + list row) (h tables idxs : list row) :
  answer sql_health = inr h →
  answer sql_tables = inr tables →
  answer sql_indexes = inr idxs →
  (∀ i, i ∈ idxs → ∃ t, t ∈ tables ∧ tablename t = tablename i) →
  (intact (verifyIntegrity (stateless answer) tt).2 = true ↔
   ∀ t, t ∈ tables → ∃ rs, answer (sql_count (tablename t)) = inr rs).
Proof.
  intros Hh Ht Hi Hsub.
  assert (Hissues : issues (verifyIntegrity (stateless answer) tt).2 =
            failures count_issue tables (answer <$> (count_stmt <$> tables)) ++
            failures index_issue idxs (answer <$> (count_stmt <$> idxs))).
  { unfold verifyIntegrity. unfold stateless at 1. rewrite Hh.
    rewrite table_layer_spec. unfold stateless at 1. rewrite Ht, exec_stateless.
    cbn [fst snd]. rewrite index_layer_spec. unfold stateless at 1.
    rewrite Hi, exec_stateless. reflexivity. }
  assert (Hintact : intact (verifyIntegrity (stateless answer) tt).2 = true ↔
                    issues (verifyIntegrity (stateless answer) tt).2 = []).
  { apply intact_iff_no_issue. }
  rewrite Hintact, Hissues. split.
  - intros [H1 _]%app_eq_nil. by apply (failures_nil_iff answer count_issue).
  - intros Hall. rewrite (proj2 (failures_nil_iff answer count_issue tables) Hall).
    rewrite app_nil_l. apply failures_nil_iff. intros i Hi'.
    destruct (Hsub i Hi') as (t & Ht' & <-). by apply Hall.
Qed.

Lemma verifyIntegrity_index_layer_adds_nothing_witness :
  intact (verifyIntegrity (stateless Fixtures.sound_answers) tt).2 = true.
Proof.
  apply (proj2 (verifyIntegrity_index_layer_adds_nothing Fixtures.sound_answers
                  [] [Fixtures.orders; Fixtures.users] [Fixtures.orders_pkey]
                  eq_refl eq_refl eq_refl
                  (λ i Hi, ex_intro _ Fixtures.orders
                     (conj (list_elem_of_here _ _)
                           (eq_sym (f_equal tablename
                              (proj1 (list_elem_of_singleton _ _) Hi))))))).
  intros t Ht. exists []. apply list_elem_of_In in Ht.
  destruct Ht as [<-|[<-|[]]]; reflexivity.
Defined.
End VerifyIntegrityMore.

(** ** A directory in the marker's place *)

Section CleanupEdge.
Import JS NodeFS HarnessFiles.

(** X23. With a directory at the marker path, [cleanupDataDir] has already
    removed the data directory when the removal of the marker throws; the
    directory at the marker path stays. *)
Theorem cleanupDataDir_throws_on_directory_marker (f : gmap string node)
    (dataDir : string) (es : list (string * node)) :
  f !! (dataDir +:+ ".lock") = Some (Dir es) →
  (∃ e, (cleanupDataDir f dataDir).2 = Some e) ∧
  (cleanupDataDir f dataDir).1 = delete dataDir f ∧
  (cleanupDataDir f dataDir).1 !! (dataDir +:+ ".lock") = Some (Dir es).
Proof.
  intros Hl.
  assert (Hne : dataDir +:+ ".lock" ≠ dataDir) by apply str_append_cons_ne.
  assert (H1 : (if existsSync f dataDir [] then rmSync_rf f dataDir else f) = delete dataDir f).
  { unfold existsSync, stat, rmSync_rf.
    destruct (f !! dataDir) as [n|] eqn:E; [by destruct n | by rewrite delete_id]. }
  unfold cleanupDataDir. rewrite H1. unfold existsSync, stat, rmSync_f.
  rewrite lookup_delete_ne by done. rewrite Hl. simpl.
  rewrite lookup_delete_ne by done. eauto.
Qed.

Lemma cleanupDataDir_throws_on_directory_marker_witness :
  (cleanupDataDir (fs (Fixtures.world (Dir Fixtures.initialised) (Some (Dir [])))) "/tmp/db").1
    !! "/tmp/db"%string = None.
Proof.
  rewrite (proj1 (proj2 (cleanupDataDir_throws_on_directory_marker
                           (fs (Fixtures.world (Dir Fixtures.initialised) (Some (Dir []))))
                           "/tmp/db" [] eq_refl))).
  apply lookup_delete_eq.
Defined.
End CleanupEdge.

Lemma crashTest_sends_at_most_one_signal_witness :
  length (Harness.sent (Harness.crashTest Fixtures.sigterm_after_delay
                          [Harness.KillTimerFires; Harness.SafetyTimerFires])) ≤ 1 ∧
  ("SIGTERM"%string = Harness.signal Fixtures.sigterm_after_delay ∨
   "SIGTERM"%string = "SIGKILL"%string).
Proof.
  split.
  - apply (proj1 (crashTest_sends_at_most_one_signal Fixtures.sigterm_after_delay
                    [Harness.KillTimerFires; Harness.SafetyTimerFires])).
  - apply (proj2 (proj2 (crashTest_sends_at_most_one_signal Fixtures.sigterm_after_delay
                           [Harness.KillTimerFires; Harness.SafetyTimerFires]))).
    apply list_elem_of_In. simpl. auto.
Defined.
